(** * Crossword CSP solver (crossword/generate.py): model and properties

    The development embeds the methods of [CrosswordCreator]:
    node consistency, [revise], [ac3], the [consistent] predicate and the
    backtracking search, and proves the properties stated about them.

    Modelling conventions.
    - A Python [set] is a [gset]; where the program iterates over a set
      the order is the one given by an [IterOrder], an arbitrary
      enumeration of the set, so every theorem holds whatever order the
      interpreter happens to use.
    - A Python exception is the [Raise] outcome of a computation; the
      mutable [self.domains] is threaded explicitly, and the state at the
      point of the raise is kept.
    - Assignments are [dict] objects living in a heap of references, since
      [backtrack] passes them around and copies them. *)

From Stdlib Require Import Ascii String.
From stdpp Require Import gmap strings list fin_maps sorting.


(** ** Outcomes of a Python computation *)

Inductive exn := KeyError | TypeError | IndexError | ValueError.

Inductive outcome (A : Type) :=
  | Ok (a : A)
  | Raise (e : exn)
  | OutOfFuel.
Arguments Ok {A} a.
Arguments Raise {A} e.
Arguments OutOfFuel {A}.

Definition obind {A B} (m : outcome A) (k : A → outcome B) : outcome B :=
  match m with
  | Ok a => k a
  | Raise e => Raise e
  | OutOfFuel => OutOfFuel
  end.

Notation "x ←! m ; k" := (obind m (λ x, k))
  (at level 20, m at level 100, k at level 200, only parsing, right associativity).

#[global] Instance exn_eq_dec : EqDecision exn.
Proof. solve_decision. Defined.

(** ** Slots *)

Inductive Direction := ACROSS | DOWN.

#[global] Instance Direction_eq_dec : EqDecision Direction.
Proof. solve_decision. Defined.

(** Modelled from the spec: the class Variable is defined in
    crossword.py, which is not among the sources.  A slot is identified by
    (row, column, direction, length) and compared by value. *)
Record Var := mkVar {
  var_i : nat;
  var_j : nat;
  var_direction : Direction;
  var_length : nat }.

#[global] Instance Var_eq_dec : EqDecision Var.
Proof. solve_decision. Defined.

Definition Var_to_tuple (v : Var) : nat * nat * bool * nat :=
  (var_i v, var_j v,
   match var_direction v with ACROSS => true | DOWN => false end,
   var_length v).

Definition Var_of_tuple (t : nat * nat * bool * nat) : Var :=
  let '(i, j, b, n) := t in
  mkVar i j (if b then ACROSS else DOWN) n.

#[global] Instance Var_countable : Countable Var.
Proof.
  apply (inj_countable' Var_to_tuple Var_of_tuple).
  by intros [i j [] n].
Defined.

(** ** The puzzle structure *)

(** What [overlaps[x, y]] holds.  The callers unpack it into two names and
    test each against [None]; a value that is [None] itself cannot be
    unpacked. *)
Inductive overlap_entry :=
  | NoOverlap                          (* None *)
  | Offsets (i j : option nat).        (* a 2-tuple (i, j) *)

#[global] Instance overlap_entry_eq_dec : EqDecision overlap_entry.
Proof. solve_decision. Defined.

(** Modelled from the spec: the class [Crossword] is defined in
    crossword.py, which is not among the sources.  The solver consumes the
    set of slots, the candidate words, the overlap table (for a pair of
    slots either no overlap or a pair of offsets) and the method
    [neighbors]. *)
Record Crossword := mkCrossword {
  variables : gset Var;
  words : gset string;
  overlaps : gmap (Var * Var) overlap_entry;
  neighbors : Var → gset Var }.

(** ** Iteration order of sets *)

Class IterOrder := {
  iter : ∀ {A} `{Countable A}, gset A → list A;
  iter_perm : ∀ {A} `{Countable A} (s : gset A), iter s ≡ₚ elements s }.

(** The enumeration of stdpp is one such order. *)
Definition elements_order : IterOrder :=
  {| iter := λ A _ _ s, elements s;
     iter_perm := λ A _ _ s, reflexivity (elements s) |}.

(** ** Strings *)

(** [w[k]] for a non-negative offset. *)
Definition py_index (w : string) (k : nat) : outcome ascii :=
  match String.get k w with
  | Some c => Ok c
  | None => Raise IndexError
  end.

(** [w[k]] where [k] may be [None]. *)
Definition py_index_opt (w : string) (k : option nat) : outcome ascii :=
  match k with
  | Some k => py_index w k
  | None => Raise TypeError
  end.

(** ** The domain store and arc consistency *)

Section Propagation.

Context (cw : Crossword) {order : IterOrder}.

(** [self.domains[x]] *)
Definition domain_get (d : gmap Var (gset string)) (x : Var)
  : outcome (gset string) :=
  match d !! x with
  | Some ws => Ok ws
  | None => Raise KeyError
  end.

(** [__init__]: every slot gets its own copy of the word list. *)
Definition init_domains : gmap Var (gset string) :=
  gset_to_gmap (words cw) (variables cw).

(** One iteration of the loop of [enforce_node_consistency]. *)
Definition node_step (d : gmap Var (gset string)) (var : Var)
  : gmap Var (gset string) :=
  match d !! var with
  | Some ws =>
      let to_remove :=
        filter (λ word, String.length word ≠ var_length var) ws in
      <[var := ws ∖ to_remove]> d
  | None => d
  end.

Definition enforce_node_consistency (d : gmap Var (gset string))
  : gmap Var (gset string) :=
  foldl node_step d (iter (dom d)).

(** [any(x_word[i] == y_word[j] for y_word in ys)] *)
Fixpoint any_match (x_word : string) (i j : nat) (ys : list string)
  : outcome bool :=
  match ys with
  | [] => Ok false
  | y_word :: ys' =>
      c ←! py_index x_word i;
      c' ←! py_index y_word j;
      if decide (c = c') then Ok true else any_match x_word i j ys'
  end.

(** The loop of [revise] that collects [to_remove]. *)
Fixpoint revise_scan (d : gmap Var (gset string)) (i j : nat)
    (y : Var) (xs : list string) (to_remove : gset string)
  : outcome (gset string) :=
  match xs with
  | [] => Ok to_remove
  | x_word :: xs' =>
      ys ←! domain_get d y;
      found ←! any_match x_word i j (iter ys);
      revise_scan d i j y xs'
        (if found then to_remove else to_remove ∪ {[x_word]})
  end.

Definition revise (x y : Var) (d : gmap Var (gset string))
  : outcome bool * gmap Var (gset string) :=
  match overlaps cw !! (x, y) with
  | None => (Raise KeyError, d)
  | Some NoOverlap => (Raise TypeError, d)
  | Some (Offsets (Some i) (Some j)) =>
      match domain_get d x with
      | Ok xs =>
          match revise_scan d i j y (iter xs) ∅ with
          | Ok to_remove =>
              if decide (to_remove = ∅) then (Ok false, d)
              else (Ok true, <[x := xs ∖ to_remove]> d)
          | Raise e => (Raise e, d)
          | OutOfFuel => (OutOfFuel, d)
          end
      | Raise e => (Raise e, d)
      | OutOfFuel => (OutOfFuel, d)
      end
  | Some (Offsets _ _) => (Ok false, d)
  end.

(** The arcs [ac3] starts from when it is given none. *)
Definition all_arcs (d : gmap Var (gset string))
  : list (Var * Var) :=
  x ← iter (dom d);
  y ← iter (neighbors cw x);
  if decide (x ≠ y) then [(x, y)] else [].

(** The [while queue] loop. *)
Fixpoint ac3_loop (fuel : nat) (queue : list (Var * Var))
    (d : gmap Var (gset string))
  : outcome bool * gmap Var (gset string) :=
  match queue with
  | [] => (Ok true, d)
  | (x, y) :: queue' =>
      match fuel with
      | 0 => (OutOfFuel, d)
      | S fuel' =>
          match revise x y d with
          | (Ok true, d') =>
              match domain_get d' x with
              | Ok xs =>
                  if decide (size xs = 0) then (Ok false, d')
                  else
                    ac3_loop fuel'
                      (queue' ++ ((λ z, (z, x)) <$> iter (neighbors cw x ∖ {[y]})))
                      d'
              | Raise e => (Raise e, d')
              | OutOfFuel => (OutOfFuel, d')
              end
          | (Ok false, d') => ac3_loop fuel' queue' d'
          | (Raise e, d') => (Raise e, d')
          | (OutOfFuel, d') => (OutOfFuel, d')
          end
      end
  end.

(** Number of words left in all domains. *)
Definition total_size (d : gmap Var (gset string)) : nat :=
  map_fold (λ _ ws n, size ws + n) 0 d.

(** Largest number of neighbours of a slot that has a domain. *)
Definition max_degree (d : gmap Var (gset string)) : nat :=
  max_list ((λ x, size (neighbors cw x)) <$> elements (dom d)).

(** Enough iterations for the loop to finish: every iteration either
    shortens the queue, or removes a word and adds at most [max_degree]
    arcs. *)
Definition ac3_fuel (queue : list (Var * Var))
    (d : gmap Var (gset string)) : nat :=
  length queue + S (max_degree d) * total_size d.

Definition ac3 (arcs : option (list (Var * Var)))
    (d : gmap Var (gset string))
  : outcome bool * gmap Var (gset string) :=
  let queue :=
    match arcs with
    | Some (arc :: arcs') => arc :: arcs'
    | _ => all_arcs d
    end in
  ac3_loop (ac3_fuel queue d) queue d.

End Propagation.

(** ** Assignments *)

(** A [dict] from slots to words, in insertion order. *)

(** [var in assignment] *)
Definition dict_mem (var : Var) (a : list (Var * string)) : bool :=
  bool_decide (var ∈ a.*1).

(** [assignment[var]] *)
Fixpoint dict_get (a : list (Var * string)) (var : Var) : outcome string :=
  match a with
  | [] => Raise KeyError
  | (k, v) :: a' => if decide (k = var) then Ok v else dict_get a' var
  end.

(** [assignment[var] = value]: an existing key keeps its place, a new key
    goes last. *)
Fixpoint dict_set (var : Var) (value : string) (a : list (Var * string))
  : list (Var * string) :=
  match a with
  | [] => [(var, value)]
  | (k, v) :: a' =>
      if decide (k = var) then (k, value) :: a'
      else (k, v) :: dict_set var value a'
  end.

(** The objects [backtrack] works on: references to dicts. *)
Definition heap_get (h : gmap nat (list (Var * string))) (l : nat)
  : list (Var * string) :=
  default [] (h !! l).

(** [assignment.copy()]: a new object with the same items. *)
Definition heap_copy (h : gmap nat (list (Var * string))) (l : nat)
  : nat * gmap nat (list (Var * string)) :=
  let l' := fresh (dom h) in
  (l', <[l' := heap_get h l]> h).

(** [dict()] *)
Definition heap_new (h : gmap nat (list (Var * string)))
  : nat * gmap nat (list (Var * string)) :=
  let l' := fresh (dom h) in
  (l', <[l' := []]> h).

(** [assignment[var] = value] on the object behind a reference. *)
Definition heap_setitem (l : nat) (var : Var) (value : string)
    (h : gmap nat (list (Var * string)))
  : gmap nat (list (Var * string)) :=
  <[l := dict_set var value (heap_get h l)]> h.

(** ** The backtracking search *)

Section Search.

Context (cw : Crossword) {order : IterOrder}.

Definition assignment_complete (a : list (Var * string)) : bool :=
  forallb (λ var, dict_mem var a) (iter (variables cw)).

(** The inner loop of [consistent]: [Ok true] when no neighbour of [var]
    conflicts. *)
Fixpoint consistent_neighbors (a : list (Var * string)) (var : Var)
    (nbs : list Var) : outcome bool :=
  match nbs with
  | [] => Ok true
  | neighbor :: nbs' =>
      if dict_mem neighbor a then
        match overlaps cw !! (var, neighbor) with
        | None => Raise KeyError
        | Some NoOverlap => Raise TypeError
        | Some (Offsets (Some i) (Some j)) =>
            w ←! dict_get a var;
            c ←! py_index w i;
            w' ←! dict_get a neighbor;
            c' ←! py_index w' j;
            if decide (c ≠ c') then Ok false
            else consistent_neighbors a var nbs'
        | Some (Offsets _ _) => consistent_neighbors a var nbs'
        end
      else consistent_neighbors a var nbs'
  end.

(** The outer loop of [consistent] over [assignment.items()]; [seen] is
    the local set [words]. *)
Fixpoint consistent_loop (a : list (Var * string)) (seen : gset string)
    (items : list (Var * string)) : outcome bool :=
  match items with
  | [] => Ok true
  | (var, word) :: items' =>
      if decide (String.length word ≠ var_length var) then Ok false
      else if decide (word ∈ seen) then Ok false
      else
        ok ←! consistent_neighbors a var (iter (neighbors cw var));
        if ok then consistent_loop a ({[word]} ∪ seen) items'
        else Ok false
  end.

Definition consistent (a : list (Var * string)) : outcome bool :=
  consistent_loop a ∅ a.

(** [sum(1 for neighbor_word in ... if neighbor_word[j] != value[i])] *)
Fixpoint count_conflicts (value : string) (i j : option nat)
    (neighbor_words : list string) : outcome nat :=
  match neighbor_words with
  | [] => Ok 0
  | neighbor_word :: rest =>
      c' ←! py_index_opt neighbor_word j;
      c ←! py_index_opt value i;
      n ←! count_conflicts value i j rest;
      Ok ((if decide (c' ≠ c) then 1 else 0) + n)
  end.

Fixpoint constraint_count_loop (d : gmap Var (gset string))
    (a : list (Var * string)) (var : Var) (value : string)
    (nbs : list Var) (count : nat) : outcome nat :=
  match nbs with
  | [] => Ok count
  | neighbor :: nbs' =>
      if dict_mem neighbor a then
        constraint_count_loop d a var value nbs' count
      else
        match overlaps cw !! (var, neighbor) with
        | None => Raise KeyError
        | Some NoOverlap => Raise TypeError
        | Some (Offsets i j) =>
            nws ←! domain_get d neighbor;
            n ←! count_conflicts value i j (iter nws);
            constraint_count_loop d a var value nbs' (count + n)
        end
  end.

Definition constraint_count (d : gmap Var (gset string))
    (a : list (Var * string)) (var : Var) (value : string) : outcome nat :=
  constraint_count_loop d a var value (iter (neighbors cw var)) 0.

(** [sorted(values, key=f)]: the keys are computed first, then the values
    are sorted by key, equal keys keeping their order. *)
Fixpoint with_keys (f : string → outcome nat) (values : list string)
  : outcome (list (nat * string)) :=
  match values with
  | [] => Ok []
  | value :: rest =>
      k ←! f value;
      ks ←! with_keys f rest;
      Ok ((k, value) :: ks)
  end.

Fixpoint insert_by_key (x : nat * string) (l : list (nat * string))
  : list (nat * string) :=
  match l with
  | [] => [x]
  | y :: l' =>
      if decide (x.1 ≤ y.1) then x :: y :: l' else y :: insert_by_key x l'
  end.

Definition sort_by_key (l : list (nat * string)) : list (nat * string) :=
  foldr insert_by_key [] l.

Definition order_domain_values (d : gmap Var (gset string)) (var : Var)
    (a : list (Var * string)) : outcome (list string) :=
  ws ←! domain_get d var;
  ks ←! with_keys (constraint_count d a var) (iter ws);
  Ok ((sort_by_key ks).*2).

(** The key of [select_unassigned_variable]:
    [(len(domains[var]), -len(neighbors(var)))]. *)
Definition mrv_key (d : gmap Var (gset string)) (var : Var)
  : outcome (nat * Z) :=
  ws ←! domain_get d var;
  Ok (size ws, (- Z.of_nat (size (neighbors cw var)))%Z).

(** Tuples compare lexicographically. *)
Definition key_lt (k1 k2 : nat * Z) : bool :=
  (k1.1 <? k2.1) || ((k1.1 =? k2.1) && (k1.2 <? k2.2)%Z).

(** [min(..., key=...)] keeps the first of the smallest elements. *)
Fixpoint min_by_key (d : gmap Var (gset string)) (best : Var)
    (best_key : nat * Z) (rest : list Var) : outcome Var :=
  match rest with
  | [] => Ok best
  | var :: rest' =>
      k ←! mrv_key d var;
      if key_lt k best_key then min_by_key d var k rest'
      else min_by_key d best best_key rest'
  end.

Definition select_unassigned_variable (d : gmap Var (gset string))
    (a : list (Var * string)) : outcome Var :=
  let unassigned_vars :=
    filter (λ var, dict_mem var a = false) (iter (variables cw)) in
  match unassigned_vars with
  | [] => Raise ValueError
  | var :: rest =>
      k ←! mrv_key d var;
      min_by_key d var k rest
  end.

(** [if result:] for what [backtrack] returned: [None] and the empty dict
    are false. *)
Definition truthy (h : gmap nat (list (Var * string))) (result : option nat)
  : bool :=
  match result with
  | None => false
  | Some r => match heap_get h r with [] => false | _ => true end
  end.

(** The [for value in ...] loop of [backtrack]; [rec] is the recursive
    call. *)
Fixpoint try_values
    (rec : nat → gmap nat (list (Var * string)) →
           outcome (option nat) * gmap nat (list (Var * string)))
    (assignment : nat) (var : Var) (values : list string)
    (h : gmap nat (list (Var * string)))
  : outcome (option nat) * gmap nat (list (Var * string)) :=
  match values with
  | [] => (Ok None, h)
  | value :: values' =>
      let '(new_assignment, h1) := heap_copy h assignment in
      let h2 := heap_setitem new_assignment var value h1 in
      match consistent (heap_get h2 new_assignment) with
      | Ok true =>
          match rec new_assignment h2 with
          | (Ok result, h3) =>
              if truthy h3 result then (Ok result, h3)
              else try_values rec assignment var values' h3
          | (Raise e, h3) => (Raise e, h3)
          | (OutOfFuel, h3) => (OutOfFuel, h3)
          end
      | Ok false => try_values rec assignment var values' h2
      | Raise e => (Raise e, h2)
      | OutOfFuel => (OutOfFuel, h2)
      end
  end.

Fixpoint backtrack (fuel : nat) (d : gmap Var (gset string))
    (assignment : nat) (h : gmap nat (list (Var * string)))
  : outcome (option nat) * gmap nat (list (Var * string)) :=
  match fuel with
  | 0 => (OutOfFuel, h)
  | S fuel' =>
      if assignment_complete (heap_get h assignment) then
        (Ok (Some assignment), h)
      else
        match select_unassigned_variable d (heap_get h assignment) with
        | Ok var =>
            match order_domain_values d var (heap_get h assignment) with
            | Ok values =>
                try_values (backtrack fuel' d) assignment var values h
            | Raise e => (Raise e, h)
            | OutOfFuel => (OutOfFuel, h)
            end
        | Raise e => (Raise e, h)
        | OutOfFuel => (OutOfFuel, h)
        end
  end.

(** ** [solve] *)

(** The method calls [solve] makes, in order. *)
Inductive call :=
  | Call_enforce_node_consistency
  | Call_ac3 (arcs : option (list (Var * Var)))
  | Call_backtrack (assignment : nat).

Record solve_run := mkRun {
  run_result : outcome (option nat);
  run_domains : gmap Var (gset string);
  run_heap : gmap nat (list (Var * string));
  run_calls : list call }.

(** One level of recursion per slot, and one more for the complete
    assignment. *)
Definition backtrack_fuel : nat := S (size (variables cw)).

Definition solve (d : gmap Var (gset string))
    (h : gmap nat (list (Var * string))) : solve_run :=
  let d1 := enforce_node_consistency d in
  let calls1 := [Call_enforce_node_consistency] in
  let '(r, d2) := ac3 cw None d1 in
  let calls2 := calls1 ++ [Call_ac3 None] in
  match r with
  | Ok _ =>
      let '(l, h1) := heap_new h in
      let '(result, h2) := backtrack backtrack_fuel d2 l h1 in
      mkRun result d2 h2 (calls2 ++ [Call_backtrack l])
  | Raise e => mkRun (Raise e) d2 h calls2
  | OutOfFuel => mkRun OutOfFuel d2 h calls2
  end.

End Search.

(** * Specification *)

(** ** Domains *)

(** What one slot's domain becomes. *)
Definition node_filter (var : Var) (ws : gset string) : gset string :=
  ws ∖ filter (λ word, String.length word ≠ var_length var) ws.

(** [w], a candidate of a slot, has a partner among the candidates of [y]
    with the same letter at the offsets [i] and [j]. *)
Definition supported (d : gmap Var (gset string)) (y : Var) (i j : nat)
    (w : string) : Prop :=
  ∃ ys w' c, d !! y = Some ys ∧ w' ∈ ys ∧
             String.get i w = Some c ∧ String.get j w' = Some c.

(** Every slot keeps a domain, and no domain gains a word. *)
Definition shrinks (d d' : gmap Var (gset string)) : Prop :=
  dom d' = dom d ∧
  ∀ x ws', d' !! x = Some ws' → ∃ ws, d !! x = Some ws ∧ ws' ⊆ ws.

(** What a call of [revise] can do. *)
Inductive revise_effect (cw : Crossword) (x y : Var) (d : gmap Var (gset string))
  : outcome bool → gmap Var (gset string) → Prop :=
  | revise_unchanged r :
      r ≠ Ok true →
      (r = Ok false → ∀ i j xs w,
         overlaps cw !! (x, y) = Some (Offsets (Some i) (Some j)) →
         d !! x = Some xs → w ∈ xs → supported d y i j w) →
      revise_effect cw x y d r d
  | revise_removed i j xs rem :
      overlaps cw !! (x, y) = Some (Offsets (Some i) (Some j)) →
      d !! x = Some xs →
      rem ≠ ∅ →
      (∀ w, w ∈ rem → w ∈ xs ∧ ¬ supported d y i j w) →
      (∀ w, w ∈ xs → w ∈ rem ∨ supported d y i j w) →
      revise_effect cw x y d (Ok true) (<[x := xs ∖ rem]> d).

(** Every candidate of [x] has a partner among the candidates of [y]. *)
Definition arc_consistent (cw : Crossword) (d : gmap Var (gset string))
    (x y : Var) : Prop :=
  ∀ i j xs w,
    overlaps cw !! (x, y) = Some (Offsets (Some i) (Some j)) →
    d !! x = Some xs → w ∈ xs → supported d y i j w.

(** The overlap relation of a puzzle is symmetric, and so is the
    neighbour relation derived from it. *)
Record symmetric_structure (cw : Crossword) : Prop := {
  neighbors_sym : ∀ x y, y ∈ neighbors cw x → x ∈ neighbors cw y;
  overlaps_sym : ∀ x y i j,
    overlaps cw !! (x, y) = Some (Offsets (Some i) (Some j)) →
    overlaps cw !! (y, x) = Some (Offsets (Some j) (Some i)) }.

(** The arcs that are not waiting in the queue are consistent. *)
Definition queue_invariant (cw : Crossword) (queue : list (Var * Var))
    (d : gmap Var (gset string)) : Prop :=
  ∀ x y, x ∈ dom d → y ∈ neighbors cw x → x ≠ y →
         (x, y) ∈ queue ∨ arc_consistent cw d x y.

(** ** Assignments *)

Definition lengths_ok (a : list (Var * string)) : Prop :=
  ∀ v w, (v, w) ∈ a → String.length w = var_length v.

Definition words_distinct (a : list (Var * string)) : Prop :=
  ∀ v1 w1 v2 w2, (v1, w1) ∈ a → (v2, w2) ∈ a → v1 ≠ v2 → w1 ≠ w2.

Definition neighbors_agree (cw : Crossword) (a : list (Var * string))
  : Prop :=
  ∀ v w nb w' i j,
    (v, w) ∈ a → (nb, w') ∈ a → nb ∈ neighbors cw v →
    overlaps cw !! (v, nb) = Some (Offsets (Some i) (Some j)) →
    ∃ c, String.get i w = Some c ∧ String.get j w' = Some c.

Definition complete (cw : Crossword) (a : list (Var * string)) : Prop :=
  ∀ var, var ∈ variables cw → ∃ w, (var, w) ∈ a.

(** The table has a pair of offsets for every slot and each of its
    neighbours. *)
Definition neighbors_unpack (cw : Crossword) : Prop :=
  ∀ x y, y ∈ neighbors cw x →
         ∃ oi oj, overlaps cw !! (x, y) = Some (Offsets oi oj).

(** What the inner loop checks for one neighbour. *)
Definition pair_ok (cw : Crossword) (a : list (Var * string)) (var nb : Var) : Prop :=
  nb ∈ a.*1 →
  ∃ oi oj, overlaps cw !! (var, nb) = Some (Offsets oi oj) ∧
    ∀ i j, oi = Some i → oj = Some j →
      ∃ w w' c, dict_get a var = Ok w ∧ dict_get a nb = Ok w' ∧
                String.get i w = Some c ∧ String.get j w' = Some c.

(** What the outer loop checks for one item. *)
Definition item_ok (cw : Crossword) (a : list (Var * string)) (item : Var * string) : Prop :=
  String.length item.2 = var_length item.1 ∧
  ∀ nb, nb ∈ neighbors cw item.1 → pair_ok cw a item.1 nb.

(** A dict that passed [consistent]. *)
Definition checked {order : IterOrder} (cw : Crossword) (a : list (Var * string)) : Prop :=
  NoDup a.*1 ∧ consistent cw a = Ok true.

(** Number of slots still to be assigned. *)
Definition unassigned (cw : Crossword) (a : list (Var * string)) : nat :=
  size (variables cw ∖ list_to_set a.*1).

(** ** The heap *)

(** The objects of [h] are still there, unchanged, in [h']. *)
Definition frame (h h' : gmap nat (list (Var * string))) : Prop :=
  ∀ l, l ∈ dom h → h' !! l = h !! l.

(** ** Example puzzles *)

(** Two crossing slots that share their first cell. *)
Definition slot_across : Var := mkVar 0 0 ACROSS 3.
Definition slot_down : Var := mkVar 0 0 DOWN 3.

Definition crossing_neighbors (v : Var) : gset Var :=
  if decide (v = slot_across) then {[slot_down]}
  else if decide (v = slot_down) then {[slot_across]}
  else ∅.

Definition crossing : Crossword :=
  mkCrossword {[slot_across; slot_down]}
    {["CAT"; "COW"; "DOG"; "AB"]}%string
    {[ (slot_across, slot_down) := Offsets (Some 0) (Some 0);
       (slot_down, slot_across) := Offsets (Some 0) (Some 0) ]}
    crossing_neighbors.

(** A single slot of length 5 and no word of that length. *)
Definition slot_long : Var := mkVar 0 0 DOWN 5.

Definition lonely : Crossword :=
  mkCrossword {[slot_long]} {["CAT"]}%string ∅ (λ _, ∅).

(** A slot of length 3 crossing one of length 5, and only a word of
    length 3. *)
Definition mismatch_neighbors (v : Var) : gset Var :=
  if decide (v = slot_across) then {[slot_long]}
  else if decide (v = slot_long) then {[slot_across]}
  else ∅.

Definition mismatch : Crossword :=
  mkCrossword {[slot_across; slot_long]} {["CAT"]}%string
    {[ (slot_across, slot_long) := Offsets (Some 0) (Some 0);
       (slot_long, slot_across) := Offsets (Some 0) (Some 0) ]}
    mismatch_neighbors.

(** Two parallel slots: they share no cell. *)
Definition slot_below : Var := mkVar 2 0 ACROSS 3.

Definition parallel : Crossword :=
  mkCrossword {[slot_across; slot_below]} {["CAT"; "DOG"]}%string
    {[ (slot_across, slot_below) := NoOverlap;
       (slot_below, slot_across) := NoOverlap ]}
    (λ _, ∅).

(** ** Well-formed puzzles and solutions *)

(** Every word left for a slot has the length of the slot. *)
Definition node_consistent (d : gmap Var (gset string)) : Prop :=
  ∀ x ws w, d !! x = Some ws → w ∈ ws → String.length w = var_length x.

(** Every word of the assignment is a candidate of its slot. *)
Definition within (d : gmap Var (gset string)) (a : list (Var * string))
  : Prop :=
  ∀ v w, (v, w) ∈ a → ∃ ws, d !! v = Some ws ∧ w ∈ ws.

(** What the puzzle structure built from a grid provides: neighbours are
    slots of the puzzle, the relations are symmetric, and the table gives
    a slot and each of its neighbours two offsets inside their words. *)
Record well_formed (cw : Crossword) : Prop := {
  wf_symmetric : symmetric_structure cw;
  wf_neighbors : ∀ x y, y ∈ neighbors cw x → y ∈ variables cw;
  wf_offsets : ∀ x y, y ∈ neighbors cw x →
    ∃ i j, overlaps cw !! (x, y) = Some (Offsets (Some i) (Some j)) ∧
           i < var_length x ∧ j < var_length y }.

(** A filled grid: one word for every slot, of the right length, no word
    twice, crossing words agreeing on the shared cell. *)
Definition solution (cw : Crossword) (s : list (Var * string)) : Prop :=
  NoDup s.*1 ∧ complete cw s ∧
  lengths_ok s ∧ words_distinct s ∧ neighbors_agree cw s.

(** The order on the keys of [select_unassigned_variable]. *)
Definition key_le (k1 k2 : nat * Z) : Prop :=
  k1.1 < k2.1 ∨ (k1.1 = k2.1 ∧ (k1.2 ≤ k2.2)%Z).

(** The arcs of the queue join a slot to one of its neighbours. *)
Definition neighbor_arcs (cw : Crossword) (d : gmap Var (gset string))
    (queue : list (Var * Var)) : Prop :=
  ∀ x y, (x, y) ∈ queue → y ∈ neighbors cw x ∧ x ∈ dom d.

(** Every item of [a] is an item of [s]. *)
Definition extends (a s : list (Var * string)) : Prop :=
  ∀ v w, (v, w) ∈ a → (v, w) ∈ s.

(** ** The letter grid *)

(** The cell of the [k]-th letter of a slot. *)
Definition cell (variable : Var) (k : nat) : nat * nat :=
  (var_i variable + (if decide (var_direction variable = DOWN) then k else 0),
   var_j variable +
     (if decide (var_direction variable = ACROSS) then k else 0)).

(** [letters[i][j] = c] *)
Definition grid_set (letters : list (list (option ascii))) (i j : nat)
    (c : ascii) : outcome (list (list (option ascii))) :=
  match letters !! i with
  | None => Raise IndexError
  | Some row =>
      if decide (j < length row) then Ok (<[i := <[j := Some c]> row]> letters)
      else Raise IndexError
  end.

(** The loop [for k in range(len(word))] of [letter_grid]. *)
Fixpoint place_word (variable : Var) (word : string) (ks : list nat)
    (letters : list (list (option ascii)))
  : outcome (list (list (option ascii))) :=
  match ks with
  | [] => Ok letters
  | k :: ks' =>
      c ←! py_index word k;
      letters' ←! grid_set letters (cell variable k).1 (cell variable k).2 c;
      place_word variable word ks' letters'
  end.

(** The loop over [assignment.items()]. *)
Fixpoint place_items (items : list (Var * string))
    (letters : list (list (option ascii)))
  : outcome (list (list (option ascii))) :=
  match items with
  | [] => Ok letters
  | (variable, word) :: items' =>
      letters' ←!
        place_word variable word (seq 0 (String.length word)) letters;
      place_items items' letters'
  end.

(** [letter_grid]; [height] and [width] are those of the puzzle. *)
Definition letter_grid (height width : nat) (assignment : list (Var * string))
  : outcome (list (list (option ascii))) :=
  place_items assignment (replicate height (replicate width None)).

(** The content of a cell; [None] also outside the grid. *)
Definition grid_get (letters : list (list (option ascii))) (i j : nat)
  : option ascii :=
  match letters !! i with
  | Some row => match row !! j with Some o => o | None => None end
  | None => None
  end.

Definition grid_dims (height width : nat)
    (letters : list (list (option ascii))) : Prop :=
  length letters = height ∧ ∀ row, row ∈ letters → length row = width.

(** Every letter of every word falls inside the grid. *)
Definition fits (height width : nat) (a : list (Var * string)) : Prop :=
  ∀ v word k, (v, word) ∈ a → k < String.length word →
              (cell v k).1 < height ∧ (cell v k).2 < width.

(** Words that cover the same cell have the same letter there. *)
Definition cells_agree (a : list (Var * string)) : Prop :=
  ∀ v1 w1 k1 c1 v2 w2 k2 c2,
    (v1, w1) ∈ a → (v2, w2) ∈ a → cell v1 k1 = cell v2 k2 →
    String.get k1 w1 = Some c1 → String.get k2 w2 = Some c2 → c1 = c2.

(** * Properties *)

(** ** Iteration orders *)

Section IterFacts.

Context {order : IterOrder} `{Countable A}.

Lemma elem_of_iter (s : gset A) (x : A) : x ∈ iter s ↔ x ∈ s.
Proof. by rewrite iter_perm, elem_of_elements. Qed.

Lemma NoDup_iter (s : gset A) : NoDup (iter s).
Proof. rewrite iter_perm. apply NoDup_elements. Qed.

Lemma length_iter (s : gset A) : length (iter s) = size s.
Proof. by rewrite iter_perm. Qed.

Lemma iter_empty : iter (∅ : gset A) = [].
Proof.
  apply Permutation_nil_r. by rewrite iter_perm, elements_empty.
Qed.

End IterFacts.

(** ** Outcomes *)

Lemma obind_Ok {A B} (m : outcome A) (k : A → outcome B) (b : B) :
  obind m k = Ok b → ∃ a, m = Ok a ∧ k a = Ok b.
Proof. destruct m; simpl; [eauto | done | done]. Qed.

Ltac inv_obind :=
  repeat match goal with
  | H : obind _ _ = Ok _ |- _ =>
      let a := fresh "a" in
      let Ha := fresh "Ha" in
      apply obind_Ok in H as (a & Ha & H)
  end.

(** ** Node consistency *)

Section NodeConsistency.

Context (cw : Crossword) {order : IterOrder}.

Lemma elem_of_node_filter var ws w :
  w ∈ node_filter var ws ↔ w ∈ ws ∧ String.length w = var_length var.
Proof.
  unfold node_filter. rewrite elem_of_difference, elem_of_filter.
  split.
  - intros [Hw Hn]. split; [done |].
    destruct (decide (String.length w = var_length var)); [done |].
    destruct Hn. by split.
  - intros [Hw Hl]. split; [done |]. intros [Hne _]. by destruct Hne.
Qed.

Lemma node_filter_idemp var ws :
  node_filter var (node_filter var ws) = node_filter var ws.
Proof.
  apply set_eq. intros w. rewrite !elem_of_node_filter. tauto.
Qed.

Lemma node_step_lookup d var x :
  node_step d var !! x =
  if decide (var = x) then node_filter x <$> d !! x else d !! x.
Proof.
  unfold node_step. case_decide as Hx.
  - subst. destruct (d !! x) eqn:Hd; simpl; [| by rewrite Hd].
    by rewrite lookup_insert_eq.
  - destruct (d !! var) eqn:Hd; [| done]. by rewrite lookup_insert_ne.
Qed.

Lemma foldl_node_step_lookup l d x :
  NoDup l →
  foldl node_step d l !! x =
  if decide (x ∈ l) then node_filter x <$> d !! x else d !! x.
Proof.
  revert d. induction l as [| var l IH]; intros d Hnd; cbn [foldl].
  - case_decide as Hx; [by apply elem_of_nil in Hx | done].
  - apply NoDup_cons in Hnd as [Hvar Hnd].
    rewrite (IH _ Hnd), node_step_lookup.
    destruct (decide (var = x)) as [-> | Hne].
    + rewrite decide_False by done.
      rewrite decide_True by (apply elem_of_cons; by left). done.
    + destruct (decide (x ∈ l)) as [Hin | Hin].
      * rewrite decide_True by (apply elem_of_cons; by right). done.
      * rewrite decide_False; [done |].
        intros [-> | ?]%elem_of_cons; done.
Qed.

Lemma enforce_node_consistency_lookup d x :
  enforce_node_consistency d !! x = node_filter x <$> d !! x.
Proof.
  unfold enforce_node_consistency.
  rewrite foldl_node_step_lookup by apply NoDup_iter.
  case_decide as Hx; [done |].
  rewrite elem_of_iter, elem_of_dom in Hx.
  destruct (d !! x) eqn:Hd; [| done]. destruct Hx. eauto.
Qed.

Lemma enforce_node_consistency_idemp d :
  enforce_node_consistency (enforce_node_consistency d) =
  enforce_node_consistency d.
Proof.
  apply map_eq. intros x. rewrite !enforce_node_consistency_lookup.
  destruct (d !! x); simpl; [| done]. by rewrite node_filter_idemp.
Qed.

Lemma enforce_node_consistency_dom d :
  dom (enforce_node_consistency d) = dom d.
Proof.
  apply set_eq. intros x. rewrite !elem_of_dom.
  rewrite enforce_node_consistency_lookup. by rewrite fmap_is_Some.
Qed.

End NodeConsistency.

(** ** Revision of one arc *)

Lemma shrinks_refl d : shrinks d d.
Proof. split; [done |]. intros x ws' H. eauto. Qed.

Lemma shrinks_trans d1 d2 d3 : shrinks d1 d2 → shrinks d2 d3 → shrinks d1 d3.
Proof.
  intros [Hd1 H1] [Hd2 H2]. split; [congruence |].
  intros x ws3 H3. destruct (H2 _ _ H3) as (ws2 & Hx2 & Hs2).
  destruct (H1 _ _ Hx2) as (ws1 & Hx1 & Hs1).
  exists ws1. split; [done | set_solver].
Qed.

Lemma shrinks_insert d x xs xs' :
  d !! x = Some xs → xs' ⊆ xs → shrinks d (<[x := xs']> d).
Proof.
  intros Hx Hsub. split.
  - rewrite dom_insert_L. apply elem_of_dom_2 in Hx. set_solver.
  - intros z ws'. destruct (decide (x = z)) as [-> | Hne].
    + rewrite lookup_insert_eq. intros [= <-]. eauto.
    + rewrite lookup_insert_ne by done. eauto.
Qed.

Section Revise.

Context (cw : Crossword) {order : IterOrder}.

Lemma py_index_Ok w k c : py_index w k = Ok c ↔ String.get k w = Some c.
Proof.
  unfold py_index. destruct (String.get k w); split; congruence.
Qed.

Lemma any_match_true x_word i j ys :
  any_match x_word i j ys = Ok true →
  ∃ w' c, w' ∈ ys ∧ String.get i x_word = Some c ∧ String.get j w' = Some c.
Proof.
  induction ys as [| y_word ys IH]; simpl; [done |].
  intros H. inv_obind. apply py_index_Ok in Ha, Ha0.
  case_decide as Hc.
  - subst. exists y_word, a0. split; [apply elem_of_cons; by left | done].
  - destruct (IH H) as (w' & c & Hin & Hg).
    exists w', c. split; [apply elem_of_cons; by right | done].
Qed.

Lemma any_match_false x_word i j ys :
  any_match x_word i j ys = Ok false →
  ∀ w' c, w' ∈ ys → String.get i x_word = Some c → String.get j w' ≠ Some c.
Proof.
  induction ys as [| y_word ys IH]; simpl.
  - intros _ w' c Hin. by apply elem_of_nil in Hin.
  - intros H. inv_obind. apply py_index_Ok in Ha, Ha0.
    case_decide as Hc; [done |].
    intros w' c [-> | Hin]%elem_of_cons Hg; [congruence | by eapply IH].
Qed.

Lemma revise_scan_sound d i j y xs acc rem :
  revise_scan d i j y xs acc = Ok rem →
  ∀ w, w ∈ rem → w ∈ acc ∨ (w ∈ xs ∧ ¬ supported d y i j w).
Proof.
  revert acc. induction xs as [| x_word xs IH]; simpl; intros acc H w Hw.
  - left. congruence.
  - inv_obind. unfold domain_get in Ha.
    destruct (d !! y) as [ys |] eqn:Hy; [| done]. injection Ha as <-.
    destruct (IH _ H w Hw) as [Hacc | [Hin Hns]].
    + destruct a0; [by left |].
      apply elem_of_union in Hacc as [Hacc | ->%elem_of_singleton]; [by left |].
      right. split; [apply elem_of_cons; by left |].
      intros (ys' & w' & c & Hy' & Hw' & Hg & Hg'). simplify_eq.
      eapply any_match_false; [done | | done..]. by apply elem_of_iter.
    + right. split; [apply elem_of_cons; by right | done].
Qed.

Lemma revise_scan_complete d i j y xs acc rem :
  revise_scan d i j y xs acc = Ok rem →
  acc ⊆ rem ∧ ∀ w, w ∈ xs → w ∈ rem ∨ supported d y i j w.
Proof.
  revert acc. induction xs as [| x_word xs IH]; simpl; intros acc H.
  - injection H as <-. split; [done |].
    intros w Hw. by apply elem_of_nil in Hw.
  - inv_obind. unfold domain_get in Ha.
    destruct (d !! y) as [ys |] eqn:Hy; [| done]. injection Ha as <-.
    destruct (IH _ H) as [Hsub Hall]. split.
    + destruct a0; set_solver.
    + intros w [-> | Hin]%elem_of_cons; [| by apply Hall].
      destruct a0.
      * right. apply any_match_true in Ha0 as (w' & c & Hin & Hg & Hg').
        exists ys, w', c. by rewrite <- elem_of_iter.
      * left. set_solver.
Qed.

Lemma revise_spec x y d :
  revise_effect cw x y d (revise cw x y d).1 (revise cw x y d).2.
Proof.
  unfold revise.
  destruct (overlaps cw !! (x, y)) as [[| [i |] [j |]] |] eqn:Ho; simpl;
    try (constructor; [done | by intros; simplify_eq]).
  unfold domain_get. destruct (d !! x) as [xs |] eqn:Hx; simpl;
    [| by constructor].
  destruct (revise_scan d i j y (iter xs) ∅) as [rem | e |] eqn:Hscan;
    simpl; try (by constructor).
  pose proof (revise_scan_sound _ _ _ _ _ _ _ Hscan) as Hsound.
  pose proof (revise_scan_complete _ _ _ _ _ _ _ Hscan) as [_ Hcompl].
  case_decide as Hrem; simpl.
  - subst rem. constructor; [done |].
    intros _ i' j' xs' w Ho' Hx' Hw. simplify_eq.
    destruct (Hcompl w) as [Hin | Hs]; [by apply elem_of_iter | | done].
    by apply not_elem_of_empty in Hin.
  - econstructor; [done | done | done | |].
    + intros w Hw. destruct (Hsound w Hw) as [Hin | [Hin Hns]].
      * by apply not_elem_of_empty in Hin.
      * split; [by apply elem_of_iter in Hin | done].
    + intros w Hw. apply Hcompl. by apply elem_of_iter.
Qed.

Lemma revise_cases x y d r d' :
  revise cw x y d = (r, d') → revise_effect cw x y d r d'.
Proof. intros H. pose proof (revise_spec x y d) as Hs. by rewrite H in Hs. Qed.

Lemma revise_shrinks x y d : shrinks d (revise cw x y d).2.
Proof.
  destruct (revise_spec x y d).
  - apply shrinks_refl.
  - eapply shrinks_insert; [done | set_solver].
Qed.

End Revise.

(** ** The propagation loop *)

Section Ac3.

Context (cw : Crossword) {order : IterOrder}.

(** No function without a loop runs out of fuel. *)
Lemma py_index_fuel w k : py_index w k ≠ OutOfFuel.
Proof. unfold py_index. by destruct (String.get k w). Qed.

Lemma any_match_fuel x_word i j ys : any_match x_word i j ys ≠ OutOfFuel.
Proof.
  induction ys as [| y_word ys IH]; simpl; [done |].
  unfold py_index.
  destruct (String.get i x_word); simpl; [| done].
  destruct (String.get j y_word); simpl; [| done].
  by case_decide.
Qed.

Lemma revise_scan_fuel d i j y xs acc :
  revise_scan d i j y xs acc ≠ OutOfFuel.
Proof.
  revert acc. induction xs as [| x_word xs IH]; intros acc; simpl; [done |].
  unfold domain_get. destruct (d !! y) as [ys |]; simpl; [| done].
  pose proof (any_match_fuel x_word i j (iter ys)).
  destruct (any_match x_word i j (iter ys)); simpl; [apply IH | done | done].
Qed.

Lemma revise_fuel x y d : (revise cw x y d).1 ≠ OutOfFuel.
Proof.
  unfold revise.
  destruct (overlaps cw !! (x, y)) as [[| [i |] [j |]] |]; simpl; try done.
  unfold domain_get. destruct (d !! x) as [xs |]; simpl; [| done].
  pose proof (revise_scan_fuel d i j y (iter xs) ∅).
  destruct (revise_scan d i j y (iter xs) ∅); simpl; [| done | done].
  by case_decide.
Qed.

Lemma total_size_delete d x xs :
  d !! x = Some xs → total_size d = size xs + total_size (delete x d).
Proof.
  intros Hx. unfold total_size.
  apply (map_fold_delete_L (λ _ ws n, size ws + n)); [| done].
  intros. lia.
Qed.

Lemma total_size_insert d x xs xs' :
  d !! x = Some xs →
  total_size (<[x := xs']> d) + size xs = total_size d + size xs'.
Proof.
  intros Hx.
  rewrite (total_size_delete d x xs Hx).
  rewrite (total_size_delete (<[x := xs']> d) x xs')
    by apply lookup_insert_eq.
  rewrite delete_insert_eq. lia.
Qed.

Lemma max_degree_bound d x :
  x ∈ dom d → size (neighbors cw x) ≤ max_degree cw d.
Proof.
  intros Hx. unfold max_degree. apply max_list_elem_of_le.
  apply list_elem_of_fmap. exists x. by rewrite elem_of_elements.
Qed.

Lemma max_degree_dom d d' : dom d' = dom d → max_degree cw d' = max_degree cw d.
Proof. unfold max_degree. by intros ->. Qed.

Lemma ac3_loop_fuel fuel queue d :
  ac3_fuel cw queue d ≤ fuel → (ac3_loop cw fuel queue d).1 ≠ OutOfFuel.
Proof.
  revert queue d.
  induction fuel as [| fuel IH]; intros [| [x y] queue] d Hfuel;
    cbn [ac3_loop]; try done.
  { unfold ac3_fuel in Hfuel. simpl in Hfuel. lia. }
  pose proof (revise_fuel x y d) as Hrf.
  destruct (revise cw x y d) as [r d'] eqn:Hrev. simpl in Hrf.
  apply revise_cases in Hrev.
  destruct Hrev as [r Hr Hsup | i j xs rem Ho Hx Hrem Hsound Hcompl].
  - destruct r as [[] | e |]; try done.
    apply IH. unfold ac3_fuel in *. simpl in Hfuel. lia.
  - unfold domain_get. rewrite lookup_insert_eq.
    case_decide as Hsz; [done |].
    apply IH.
    assert (Hsub : rem ⊆ xs) by (intros w Hw; by apply Hsound).
    assert (Hdom : dom (<[x := xs ∖ rem]> d) = dom d).
    { apply (shrinks_insert d x xs); [done | set_solver]. }
    pose proof (total_size_insert d x xs (xs ∖ rem) Hx) as Htot.
    rewrite size_difference in Htot, Hsz by done.
    assert (size rem ≠ 0) by (by intros ?%size_empty_inv%leibniz_equiv).
    pose proof (subseteq_size _ _ Hsub).
    assert (Hdeg : size (neighbors cw x ∖ {[y]}) ≤ max_degree cw d).
    { etrans; [| apply max_degree_bound; by apply elem_of_dom_2 in Hx].
      apply subseteq_size. set_solver. }
    unfold ac3_fuel in *. rewrite (max_degree_dom _ _ Hdom).
    rewrite length_app, length_fmap, length_iter.
    simpl in Hfuel. nia.
Qed.

(** [ac3] always comes to an end. *)
Lemma ac3_total arcs d : (ac3 cw arcs d).1 ≠ OutOfFuel.
Proof. unfold ac3. by apply ac3_loop_fuel. Qed.

Lemma ac3_loop_shrinks fuel queue d :
  shrinks d (ac3_loop cw fuel queue d).2.
Proof.
  revert queue d.
  induction fuel as [| fuel IH]; intros [| [x y] queue] d;
    cbn [ac3_loop]; try apply shrinks_refl.
  pose proof (revise_shrinks cw x y d) as Hs.
  destruct (revise cw x y d) as [[[] | e |] d']; simpl in *; try done.
  - destruct (domain_get d' x) as [xs | e |]; simpl; try done.
    case_decide; simpl; [done |].
    eapply shrinks_trans; [done | apply IH].
  - eapply shrinks_trans; [done | apply IH].
Qed.

Lemma ac3_shrinks arcs d : shrinks d (ac3 cw arcs d).2.
Proof. apply ac3_loop_shrinks. Qed.

End Ac3.

(** ** Failure of the propagation loop *)

Section Ac3Failure.

Context (cw : Crossword) {order : IterOrder}.

Lemma ac3_loop_false fuel queue d d' :
  ac3_loop cw fuel queue d = (Ok false, d') →
  ∃ x xs, d !! x = Some xs ∧ xs ≠ ∅ ∧ d' !! x = Some ∅.
Proof.
  revert queue d.
  induction fuel as [| fuel IH]; intros [| [x y] queue] d;
    cbn [ac3_loop]; try done.
  destruct (revise cw x y d) as [r d1] eqn:Hrev.
  pose proof (revise_shrinks cw x y d) as [_ Hs]. rewrite Hrev in Hs.
  simpl in Hs.
  assert (Hback : (∃ x xs, d1 !! x = Some xs ∧ xs ≠ ∅ ∧ d' !! x = Some ∅) →
                  ∃ x xs, d !! x = Some xs ∧ xs ≠ ∅ ∧ d' !! x = Some ∅).
  { intros (x0 & xs0 & Hx0 & Hne & Hx0').
    destruct (Hs _ _ Hx0) as (ws & Hws & Hsub).
    exists x0, ws. split_and!; [done | set_solver | done]. }
  apply revise_cases in Hrev.
  destruct Hrev as [r Hr Hsup | i j xs rem Ho Hx Hrem Hsound Hcompl].
  - destruct r as [[] | e |]; try done. intros H. by eapply IH.
  - unfold domain_get. rewrite lookup_insert_eq.
    case_decide as Hsz.
    + intros [= <-]. exists x, xs. split_and!; [done | set_solver |].
      rewrite lookup_insert_eq. f_equal.
      by apply leibniz_equiv, size_empty_inv.
    + intros H. apply Hback. by eapply IH.
Qed.

Lemma ac3_loop_true fuel queue d d' :
  ac3_loop cw fuel queue d = (Ok true, d') →
  ∀ x xs, d !! x = Some xs → xs ≠ ∅ → d' !! x ≠ Some ∅.
Proof.
  revert queue d.
  induction fuel as [| fuel IH]; intros [| [x y] queue] d;
    cbn [ac3_loop]; try done.
  1, 2: by intros [= <-] x xs -> Hne [= ->].
  destruct (revise cw x y d) as [r d1] eqn:Hrev.
  apply revise_cases in Hrev.
  destruct Hrev as [r Hr Hsup | i j xs rem Ho Hx Hrem Hsound Hcompl].
  - destruct r as [[] | e |]; try done. intros H. by eapply IH.
  - unfold domain_get. rewrite lookup_insert_eq.
    case_decide as Hsz; [done |].
    intros H x0 xs0 Hx0 Hne.
    destruct (decide (x = x0)) as [<- | Hx0x].
    + eapply (IH _ _ H x (xs ∖ rem)); [by rewrite lookup_insert_eq |].
      intros Hemp. rewrite Hemp, size_empty in Hsz. done.
    + eapply (IH _ _ H x0 xs0); [by rewrite lookup_insert_ne | done].
Qed.

End Ac3Failure.

(** ** Arc consistency after the loop *)

Section Ac3Postcondition.

Context (cw : Crossword) {order : IterOrder}.
Hypothesis Hsym : symmetric_structure cw.

Lemma supported_insert_ne d x v y i j w :
  y ≠ x → supported d y i j w → supported (<[x := v]> d) y i j w.
Proof.
  intros Hne (ys & w' & c & Hy & Hw' & Hg & Hg').
  exists ys, w', c. by rewrite lookup_insert_ne.
Qed.

Lemma arc_consistent_insert_other d x v a b :
  a ≠ x → b ≠ x → arc_consistent cw d a b →
  arc_consistent cw (<[x := v]> d) a b.
Proof.
  intros Ha Hb Hac i j xs w Ho Hxs Hw.
  rewrite lookup_insert_ne in Hxs by done.
  apply supported_insert_ne; [done |]. by eapply Hac.
Qed.

Lemma queue_invariant_unchanged x y queue d :
  arc_consistent cw d x y →
  queue_invariant cw ((x, y) :: queue) d → queue_invariant cw queue d.
Proof.
  intros Hac Hinv a b Ha Hb Hab.
  destruct (Hinv a b Ha Hb Hab) as [[[= -> ->] | Hin]%elem_of_cons | H];
    auto.
Qed.

Lemma queue_invariant_removed x y i j xs rem queue d :
  overlaps cw !! (x, y) = Some (Offsets (Some i) (Some j)) →
  d !! x = Some xs →
  (∀ w, w ∈ rem → w ∈ xs ∧ ¬ supported d y i j w) →
  (∀ w, w ∈ xs → w ∈ rem ∨ supported d y i j w) →
  queue_invariant cw ((x, y) :: queue) d →
  queue_invariant cw
    (queue ++ ((λ z, (z, x)) <$> iter (neighbors cw x ∖ {[y]})))
    (<[x := xs ∖ rem]> d).
Proof.
  intros Ho Hx Hsound Hcompl Hinv a b Ha Hb Hab.
  assert (Ha' : a ∈ dom d).
  { rewrite dom_insert_L in Ha. apply elem_of_dom_2 in Hx. set_solver. }
  rewrite elem_of_app.
  destruct (decide (a = x)) as [-> | Hax].
  - destruct (decide (b = y)) as [-> | Hby].
    + right. intros i' j' xs' w Ho' Hxs' Hw.
      rewrite lookup_insert_eq in Hxs'. simplify_eq.
      apply elem_of_difference in Hw as [Hw Hnrem].
      apply supported_insert_ne; [done |].
      by destruct (Hcompl w Hw).
    + destruct (Hinv x b Ha' Hb Hab)
        as [[[= ->] | Hin]%elem_of_cons | Hac]; [done | by left; left |].
      right. intros i' j' xs' w Ho' Hxs' Hw.
      rewrite lookup_insert_eq in Hxs'. simplify_eq.
      apply elem_of_difference in Hw as [Hw Hnrem].
      apply supported_insert_ne; [done |]. by eapply Hac.
  - destruct (decide (b = x)) as [-> | Hbx].
    + destruct (decide (a = y)) as [-> | Hay].
      * destruct (Hinv y x Ha' Hb Hab)
          as [[[= -> _] | Hin]%elem_of_cons | Hac]; [done | by left; left |].
        right. intros j' i' ys w' Ho' Hys Hw'.
        rewrite lookup_insert_ne in Hys by done.
        rewrite (overlaps_sym _ Hsym _ _ _ _ Ho) in Ho'. simplify_eq.
        destruct (Hac _ _ _ _ (overlaps_sym _ Hsym _ _ _ _ Ho) Hys Hw')
          as (xs0 & w & c & Hxs0 & Hw & Hg' & Hg).
        simplify_eq. exists (xs ∖ rem), w, c.
        rewrite lookup_insert_eq. split_and!; try done.
        apply elem_of_difference. split; [done |].
        intros Hrem. apply (Hsound w Hrem). by exists ys, w', c.
      * left. right. apply list_elem_of_fmap. exists a. split; [done |].
        apply elem_of_iter, elem_of_difference. split.
        -- by apply (neighbors_sym _ Hsym).
        -- by intros ->%elem_of_singleton.
    + destruct (Hinv a b Ha' Hb Hab)
        as [[[= -> _] | Hin]%elem_of_cons | Hac]; [done | by left; left |].
      right. by apply arc_consistent_insert_other.
Qed.

Lemma ac3_loop_arc_consistent fuel queue d d' :
  ac3_loop cw fuel queue d = (Ok true, d') →
  queue_invariant cw queue d → queue_invariant cw [] d'.
Proof.
  revert queue d.
  induction fuel as [| fuel IH]; intros [| [x y] queue] d;
    cbn [ac3_loop]; try done.
  1, 2: by intros [= <-].
  destruct (revise cw x y d) as [r d1] eqn:Hrev.
  apply revise_cases in Hrev.
  destruct Hrev as [r Hr Hsup | i j xs rem Ho Hx Hrem Hsound Hcompl].
  - destruct r as [[] | e |]; try done. intros H Hinv.
    eapply IH; [done |].
    eapply queue_invariant_unchanged; [| done].
    intros i j xs w. by apply Hsup.
  - unfold domain_get. rewrite lookup_insert_eq.
    case_decide as Hsz; [done |].
    intros H Hinv. eapply IH; [done |].
    by eapply queue_invariant_removed.
Qed.

Lemma all_arcs_invariant d : queue_invariant cw (all_arcs cw d) d.
Proof.
  intros x y Hx Hy Hxy. left. unfold all_arcs.
  apply list_elem_of_bind. exists x. split; [| by apply elem_of_iter].
  apply list_elem_of_bind. exists y. split; [| by apply elem_of_iter].
  rewrite decide_True by done. apply list_elem_of_singleton. done.
Qed.

End Ac3Postcondition.

(** ** Dictionaries *)

Lemma dict_mem_true var (a : list (Var * string)) :
  dict_mem var a = true ↔ var ∈ a.*1.
Proof. unfold dict_mem. by rewrite bool_decide_eq_true. Qed.

Lemma dict_mem_false var (a : list (Var * string)) :
  dict_mem var a = false ↔ var ∉ a.*1.
Proof. unfold dict_mem. by rewrite bool_decide_eq_false. Qed.

Lemma dict_get_elem_of (a : list (Var * string)) var w :
  dict_get a var = Ok w → (var, w) ∈ a.
Proof.
  induction a as [| [k v] a IH]; simpl; [done |].
  case_decide as Hk.
  - intros [= ->]. subst. apply elem_of_cons. by left.
  - intros H. apply elem_of_cons. right. by apply IH.
Qed.

Lemma dict_get_Ok (a : list (Var * string)) var w :
  NoDup a.*1 → (var, w) ∈ a → dict_get a var = Ok w.
Proof.
  induction a as [| [k v] a IH]; simpl; intros Hnd Hin.
  - by apply elem_of_nil in Hin.
  - apply NoDup_cons in Hnd as [Hk Hnd].
    apply elem_of_cons in Hin as [[= -> ->] | Hin].
    + by rewrite decide_True.
    + rewrite decide_False; [by apply IH |].
      intros ->. apply Hk. apply list_elem_of_fmap. by exists (var, w).
Qed.

Lemma dict_get_fuel (a : list (Var * string)) var : dict_get a var ≠ OutOfFuel.
Proof.
  induction a as [| [k v] a IH]; simpl; [done |]. by case_decide.
Qed.

Lemma dict_set_fresh var value (a : list (Var * string)) :
  var ∉ a.*1 → dict_set var value a = a ++ [(var, value)].
Proof.
  induction a as [| [k v] a IH]; simpl; intros Hvar; [done |].
  apply not_elem_of_cons in Hvar as [Hne Hvar].
  rewrite decide_False by done. by rewrite IH.
Qed.

Lemma dict_set_keys var value (a : list (Var * string)) x :
  x ∈ (dict_set var value a).*1 ↔ x = var ∨ x ∈ a.*1.
Proof.
  induction a as [| [k v] a IH]; simpl.
  - rewrite list_elem_of_singleton, elem_of_nil. tauto.
  - case_decide as Hk; simpl; rewrite !elem_of_cons.
    + subst. tauto.
    + rewrite IH. tauto.
Qed.

Lemma dict_set_NoDup var value (a : list (Var * string)) :
  NoDup a.*1 → NoDup (dict_set var value a).*1.
Proof.
  induction a as [| [k v] a IH]; simpl; intros Hnd.
  - apply NoDup_singleton.
  - apply NoDup_cons in Hnd as [Hk Hnd].
    case_decide as Hkv; simpl; apply NoDup_cons.
    + done.
    + split; [| by apply IH].
      rewrite dict_set_keys. intros [-> | ?]; done.
Qed.

(** ** The predicate [consistent] *)

Section Consistent.

Context (cw : Crossword) {order : IterOrder}.

Lemma consistent_neighbors_true a var nbs :
  consistent_neighbors cw a var nbs = Ok true ↔
  ∀ nb, nb ∈ nbs → pair_ok cw a var nb.
Proof.
  induction nbs as [| nb nbs IH]; simpl.
  { split; [| done]. intros _ nb Hnb. by apply elem_of_nil in Hnb. }
  assert (Hrest : (∀ nb0, nb0 ∈ nb :: nbs → pair_ok cw a var nb0) ↔
                  pair_ok cw a var nb ∧ ∀ nb0, nb0 ∈ nbs → pair_ok cw a var nb0).
  { setoid_rewrite elem_of_cons. naive_solver. }
  rewrite Hrest, <- IH. clear Hrest IH.
  destruct (dict_mem nb a) eqn:Hmem.
  2: { apply dict_mem_false in Hmem. unfold pair_ok. tauto. }
  apply dict_mem_true in Hmem. unfold pair_ok.
  destruct (overlaps cw !! (var, nb)) as [[| [i |] [j |]] |] eqn:Ho;
    try (split; [naive_solver | by intros [? ?]]);
    try (split; [done | by intros [(? & ? & ? & _) _]]).
  split.
  - intros H.
    destruct (dict_get a var) as [w | |] eqn:Hw; simpl in H; try done.
    destruct (py_index w i) as [c | |] eqn:Hc; simpl in H; try done.
    destruct (dict_get a nb) as [w' | |] eqn:Hw'; simpl in H; try done.
    destruct (py_index w' j) as [c' | |] eqn:Hc'; simpl in H; try done.
    apply py_index_Ok in Hc, Hc'.
    case_decide as Hcc; [done |].
    split; [| done]. intros _. eexists _, _. split; [done |].
    intros ? ? [= <-] [= <-]. exists w, w', c. split_and!; try done.
    destruct (decide (c = c')); [congruence | done].
  - intros [Hp Hrest].
    destruct (Hp Hmem) as (oi & oj & [= <- <-] & Hoff).
    destruct (Hoff i j eq_refl eq_refl) as (w & w' & c & -> & -> & Hc & Hc').
    apply py_index_Ok in Hc, Hc'. simpl. rewrite Hc. simpl. rewrite Hc'.
    simpl. by rewrite decide_False by (by intros []).
Qed.

Lemma consistent_neighbors_fuel a var nbs :
  consistent_neighbors cw a var nbs ≠ OutOfFuel.
Proof.
  induction nbs as [| nb nbs IH]; simpl; [done |].
  destruct (dict_mem nb a); [| done].
  destruct (overlaps cw !! (var, nb)) as [[| [i |] [j |]] |]; try done.
  pose proof (dict_get_fuel a var). pose proof (dict_get_fuel a nb).
  destruct (dict_get a var) as [w | |]; simpl; try done.
  pose proof (py_index_fuel w i).
  destruct (py_index w i); simpl; try done.
  destruct (dict_get a nb) as [w' | |]; simpl; try done.
  pose proof (py_index_fuel w' j).
  destruct (py_index w' j); simpl; try done.
  by case_decide.
Qed.

Lemma consistent_loop_true a seen items :
  consistent_loop cw a seen items = Ok true ↔
  Forall (item_ok cw a) items ∧ NoDup items.*2 ∧
  ∀ w, w ∈ items.*2 → w ∉ seen.
Proof.
  revert seen. induction items as [| [var word] items IH]; intros seen.
  { simpl. split; [| done]. intros _. split_and!; [done | constructor |].
    intros w Hw. by apply elem_of_nil in Hw. }
  cbn [consistent_loop fmap list_fmap snd].
  rewrite Forall_cons, NoDup_cons. unfold item_ok at 1. simpl.
  case_decide as Hlen; [split; [done | tauto] |].
  case_decide as Hseen.
  { split; [done |]. intros (_ & _ & Hno). destruct (Hno word); [| done].
    apply elem_of_cons. by left. }
  pose proof (consistent_neighbors_true a var (iter (neighbors cw var)))
    as Hnb.
  setoid_rewrite elem_of_iter in Hnb.
  destruct (consistent_neighbors cw a var (iter (neighbors cw var)))
    as [[] | e |]; simpl.
  - rewrite IH. destruct Hnb as [Hnb _]. specialize (Hnb eq_refl).
    split.
    + intros (Hall & Hnd & Hno). split_and!; try done.
      * intros Hin. apply (Hno word Hin). set_solver.
      * intros w [-> | Hin]%elem_of_cons; [done |].
        specialize (Hno w Hin). set_solver.
    + intros ([[_ _] Hall] & [Hword Hnd] & Hno). split_and!; try done.
      intros w Hin. apply not_elem_of_union. split.
      * intros ->%elem_of_singleton. done.
      * apply Hno. apply elem_of_cons. by right.
  - split; [done |]. intros ([[_ H] _] & _). by apply Hnb in H.
  - split; [done |]. intros ([[_ H] _] & _). by apply Hnb in H.
  - split; [done |]. intros ([[_ H] _] & _). by apply Hnb in H.
Qed.

Lemma consistent_true a :
  consistent cw a = Ok true ↔ Forall (item_ok cw a) a ∧ NoDup a.*2.
Proof.
  unfold consistent. rewrite consistent_loop_true.
  split; [tauto |]. intros [? ?]. split_and!; done.
Qed.

Lemma consistent_loop_fuel a seen items :
  consistent_loop cw a seen items ≠ OutOfFuel.
Proof.
  revert seen. induction items as [| [var word] items IH]; intros seen;
    simpl; [done |].
  case_decide; [done |]. case_decide; [done |].
  pose proof (consistent_neighbors_fuel a var (iter (neighbors cw var))).
  destruct (consistent_neighbors cw a var (iter (neighbors cw var)))
    as [[] | |]; simpl; try done.
Qed.

End Consistent.

Section ConsistentMeaning.

Context (cw : Crossword) {order : IterOrder}.

Lemma NoDup_words_distinct (a : list (Var * string)) :
  NoDup a.*2 → words_distinct a.
Proof.
  induction a as [| [k x] a IH]; simpl; intros Hnd v1 w1 v2 w2 H1 H2 Hne.
  { by apply elem_of_nil in H1. }
  apply NoDup_cons in Hnd as [Hx Hnd].
  assert (Hsnd : ∀ v w, (v, w) ∈ a → w ∈ a.*2).
  { intros v w Hin. apply list_elem_of_fmap. by exists (v, w). }
  apply elem_of_cons in H1 as [[= -> ->] | H1];
    apply elem_of_cons in H2 as [[= -> ->] | H2].
  - done.
  - intros ->. apply Hx. by eapply Hsnd.
  - intros <-. apply Hx. by eapply Hsnd.
  - by eapply IH.
Qed.

Lemma words_distinct_NoDup (a : list (Var * string)) :
  NoDup a.*1 → words_distinct a → NoDup a.*2.
Proof.
  induction a as [| [k x] a IH]; simpl; intros Hnd Hdist; [constructor |].
  apply NoDup_cons in Hnd as [Hk Hnd]. apply NoDup_cons. split.
  - intros ([v w] & Hw & Hin)%list_elem_of_fmap. simpl in Hw. subst w.
    apply (Hdist k x v x); [apply elem_of_cons; by left
                           | apply elem_of_cons; by right | | done].
    intros ->. apply Hk. apply list_elem_of_fmap. by exists (v, x).
  - apply IH; [done |]. intros v1 w1 v2 w2 H1 H2.
    apply Hdist; apply elem_of_cons; by right.
Qed.

Lemma items_ok_meaning (a : list (Var * string)) :
  NoDup a.*1 → Forall (item_ok cw a) a →
  lengths_ok a ∧ neighbors_agree cw a.
Proof.
  intros Hnd Hall. rewrite Forall_forall in Hall. split.
  - intros v w Hin. by destruct (Hall _ Hin).
  - intros v w nb w' i j Hv Hnb Hnbr Ho.
    destruct (Hall _ Hv) as [_ Hpair]. simpl in Hpair.
    destruct (Hpair nb Hnbr) as (oi & oj & Ho' & Hoff).
    { apply list_elem_of_fmap. by exists (nb, w'). }
    rewrite Ho in Ho'. injection Ho' as <- <-.
    destruct (Hoff i j eq_refl eq_refl) as (w0 & w0' & c & Hg & Hg' & Hc & Hc').
    rewrite (dict_get_Ok a v w Hnd Hv) in Hg.
    rewrite (dict_get_Ok a nb w' Hnd Hnb) in Hg'.
    simplify_eq. by exists c.
Qed.

Lemma meaning_items_ok (a : list (Var * string)) :
  NoDup a.*1 → neighbors_unpack cw →
  lengths_ok a → neighbors_agree cw a → Forall (item_ok cw a) a.
Proof.
  intros Hnd Hunpack Hlen Hagree. apply Forall_forall.
  intros [v w] Hv. split; simpl; [by apply Hlen |].
  intros nb Hnbr ([nb' w'] & Hnb' & Hnb)%list_elem_of_fmap.
  simpl in Hnb'. subst nb'.
  destruct (Hunpack v nb Hnbr) as (oi & oj & Ho).
  exists oi, oj. split; [done |]. intros i j -> ->.
  destruct (Hagree v w nb w' i j Hv Hnb Hnbr Ho) as (c & Hc & Hc').
  exists w, w', c. split_and!; try done; by apply dict_get_Ok.
Qed.

Lemma consistent_meaning (a : list (Var * string)) :
  NoDup a.*1 → consistent cw a = Ok true →
  lengths_ok a ∧ words_distinct a ∧ neighbors_agree cw a.
Proof.
  intros Hnd [Hall Hw]%consistent_true.
  destruct (items_ok_meaning a Hnd Hall). split_and!; try done.
  by apply NoDup_words_distinct.
Qed.

Lemma assignment_complete_true (a : list (Var * string)) :
  assignment_complete cw a = true ↔ complete cw a.
Proof.
  unfold assignment_complete, complete.
  rewrite <- Is_true_true, forallb_True, Forall_forall.
  split; intros H var Hvar.
  - apply elem_of_iter in Hvar. specialize (H var Hvar). simpl in H.
    apply Is_true_true, dict_mem_true in H.
    apply list_elem_of_fmap in H as ([v w] & -> & Hin). by exists w.
  - apply elem_of_iter in Hvar. destruct (H var Hvar) as [w Hin]. simpl.
    apply Is_true_true, dict_mem_true, list_elem_of_fmap.
    by exists (var, w).
Qed.

End ConsistentMeaning.

(** ** The heap during the search *)

Lemma frame_refl h : frame h h.
Proof. by intros l _. Qed.

Lemma frame_dom h h' l : frame h h' → l ∈ dom h → l ∈ dom h'.
Proof.
  intros Hf Hl. apply elem_of_dom. rewrite (Hf l Hl). by apply elem_of_dom.
Qed.

Lemma frame_trans h1 h2 h3 : frame h1 h2 → frame h2 h3 → frame h1 h3.
Proof.
  intros H12 H23 l Hl. rewrite <- (H12 l Hl). apply H23.
  by eapply frame_dom.
Qed.

Lemma frame_heap_get h h' l : frame h h' → l ∈ dom h → heap_get h' l = heap_get h l.
Proof. intros Hf Hl. unfold heap_get. by rewrite (Hf l Hl). Qed.

Lemma heap_get_insert h l a : heap_get (<[l := a]> h) l = a.
Proof. unfold heap_get. by rewrite lookup_insert_eq. Qed.

Lemma heap_get_lookup h l : l ∈ dom h → h !! l = Some (heap_get h l).
Proof. intros [a Ha]%elem_of_dom. unfold heap_get. by rewrite Ha. Qed.

(** The heap after [new_assignment = assignment.copy()] and
    [new_assignment[var] = value]. *)
Lemma heap_branch h l var value :
  heap_setitem (heap_copy h l).1 var value (heap_copy h l).2 =
  <[fresh (dom h) := dict_set var value (heap_get h l)]> h.
Proof.
  unfold heap_setitem, heap_copy. simpl.
  by rewrite heap_get_insert, insert_insert_eq.
Qed.

Lemma frame_insert_fresh h a : frame h (<[fresh (dom h) := a]> h).
Proof.
  intros l Hl. apply lookup_insert_ne. intros <-. by apply is_fresh in Hl.
Qed.

Section SearchFacts.

Context (cw : Crossword) {order : IterOrder}.

Lemma checked_nil : checked cw [].
Proof. split; [constructor | done]. Qed.

Section Loop.

Variable rec : nat → gmap nat (list (Var * string)) →
               outcome (option nat) * gmap nat (list (Var * string)).

Hypothesis rec_frame : ∀ l h res h', rec l h = (res, h') → frame h h'.

Lemma try_values_frame l var values h res h' :
  try_values cw rec l var values h = (res, h') → frame h h'.
Proof.
  revert h. induction values as [| value values IH]; intros h;
    cbn [try_values].
  { intros [= _ <-]. apply frame_refl. }
  pose proof (heap_branch h l var value) as Hb.
  destruct (heap_copy h l) as [l' h1]. simpl in Hb. rewrite Hb. clear Hb.
  pose proof (frame_insert_fresh h (dict_set var value (heap_get h l)))
    as Hf2.
  set (h2 := <[fresh (dom h) := dict_set var value (heap_get h l)]> h) in *.
  destruct (consistent cw (heap_get h2 l')) as [[] | e |].
  - destruct (rec l' h2) as [[result | e |] h3] eqn:Hrec;
      apply rec_frame in Hrec.
    + destruct (truthy h3 result).
      * intros [= _ <-]. by eapply frame_trans.
      * intros H. apply IH in H. eauto using frame_trans.
    + intros [= _ <-]. by eapply frame_trans.
    + intros [= _ <-]. by eapply frame_trans.
  - intros H. apply IH in H. by eapply frame_trans.
  - by intros [= _ <-].
  - by intros [= _ <-].
Qed.

Hypothesis rec_sound : ∀ l h r h',
  rec l h = (Ok (Some r), h') → l ∈ dom h → checked cw (heap_get h l) →
  ∃ a, h' !! r = Some a ∧ assignment_complete cw a = true ∧ checked cw a.

Lemma try_values_sound l var values h r h' :
  try_values cw rec l var values h = (Ok (Some r), h') →
  l ∈ dom h → NoDup (heap_get h l).*1 →
  ∃ a, h' !! r = Some a ∧ assignment_complete cw a = true ∧ checked cw a.
Proof.
  revert h. induction values as [| value values IH]; intros h;
    cbn [try_values]; [done |].
  intros H Hl Hnd.
  pose proof (heap_branch h l var value) as Hb.
  unfold heap_copy in *. simpl in Hb. rewrite Hb in H. clear Hb.
  pose proof (frame_insert_fresh h (dict_set var value (heap_get h l)))
    as Hf2.
  set (l' := fresh (dom h)) in *.
  set (h2 := <[l' := dict_set var value (heap_get h l)]> h) in *.
  assert (Hget : heap_get h2 l' = dict_set var value (heap_get h l))
    by apply heap_get_insert.
  rewrite Hget in H.
  destruct (consistent cw (dict_set var value (heap_get h l)))
    as [[] | e |] eqn:Hcons; try done.
  - destruct (rec l' h2) as [[result | e |] h3] eqn:Hrec; try done.
    destruct (truthy h3 result).
    + injection H as -> ->. eapply rec_sound; [done | |].
      * apply elem_of_dom. unfold h2. rewrite lookup_insert_eq. eauto.
      * rewrite Hget. split; [by apply dict_set_NoDup | done].
    + apply rec_frame in Hrec.
      assert (Hf3 : frame h h3) by by eapply frame_trans.
      apply IH in H; [done | by eapply frame_dom |].
      by rewrite (frame_heap_get _ _ _ Hf3 Hl).
  - apply IH in H; [done | by eapply frame_dom |].
    by rewrite (frame_heap_get _ _ _ Hf2 Hl).
Qed.

End Loop.

Lemma backtrack_frame fuel d l h res h' :
  backtrack cw fuel d l h = (res, h') → frame h h'.
Proof.
  revert l h res h'. induction fuel as [| fuel IH]; intros l h res h';
    cbn [backtrack].
  { intros [= _ <-]. apply frame_refl. }
  destruct (assignment_complete cw (heap_get h l)).
  { intros [= _ <-]. apply frame_refl. }
  destruct (select_unassigned_variable cw d (heap_get h l))
    as [var | e |]; try (intros [= _ <-]; apply frame_refl).
  destruct (order_domain_values cw d var (heap_get h l))
    as [values | e |]; try (intros [= _ <-]; apply frame_refl).
  apply try_values_frame. apply IH.
Qed.

Lemma backtrack_sound fuel d l h r h' :
  backtrack cw fuel d l h = (Ok (Some r), h') →
  l ∈ dom h → checked cw (heap_get h l) →
  ∃ a, h' !! r = Some a ∧ assignment_complete cw a = true ∧ checked cw a.
Proof.
  revert l h r h'. induction fuel as [| fuel IH]; intros l h r h';
    cbn [backtrack]; [done |].
  destruct (assignment_complete cw (heap_get h l)) eqn:Hcompl.
  { intros [= <- <-] Hl Hc. exists (heap_get h l).
    split_and!; try done. by apply heap_get_lookup. }
  destruct (select_unassigned_variable cw d (heap_get h l))
    as [var | e |]; try done.
  destruct (order_domain_values cw d var (heap_get h l))
    as [values | e |]; try done.
  intros H Hl [Hnd _].
  eapply try_values_sound; [| | done..].
  - intros ? ? ? ?. apply backtrack_frame.
  - apply IH.
Qed.

End SearchFacts.

(** ** Selection of the next slot *)

Section Selection.

Context (cw : Crossword) {order : IterOrder}.

Lemma mrv_key_Ok d var k :
  mrv_key cw d var = Ok k → ∃ ws, d !! var = Some ws ∧ k.1 = size ws.
Proof.
  unfold mrv_key, domain_get. destruct (d !! var) as [ws |]; simpl; [| done].
  intros [= <-]. eauto.
Qed.

Lemma key_lt_true k1 k2 : key_lt k1 k2 = true → k1.1 ≤ k2.1.
Proof.
  unfold key_lt. intros H. apply orb_true_iff in H as [H | H].
  - apply Nat.ltb_lt in H. lia.
  - apply andb_true_iff in H as [H _]. apply Nat.eqb_eq in H. lia.
Qed.

Lemma key_lt_false k1 k2 : key_lt k1 k2 = false → k2.1 ≤ k1.1.
Proof.
  unfold key_lt. intros H. apply orb_false_iff in H as [H _].
  by apply Nat.ltb_ge in H.
Qed.

Lemma min_by_key_spec d best bk rest v :
  min_by_key cw d best bk rest = Ok v →
  mrv_key cw d best = Ok bk →
  ∃ kv, mrv_key cw d v = Ok kv ∧ (v = best ∨ v ∈ rest) ∧ kv.1 ≤ bk.1 ∧
        ∀ u, u ∈ rest → ∃ ku, mrv_key cw d u = Ok ku ∧ kv.1 ≤ ku.1.
Proof.
  revert best bk. induction rest as [| var rest IH]; intros best bk; simpl.
  - intros [= <-] Hb. exists bk. split_and!; [done | by left | done |].
    intros u Hu. by apply elem_of_nil in Hu.
  - intros H Hb. inv_obind. rename a into k.
    destruct (key_lt k bk) eqn:Hlt.
    + apply key_lt_true in Hlt.
      destruct (IH _ _ H Ha) as (kv & Hkv & Hin & Hle & Hall).
      exists kv. split_and!; [done | | lia |].
      * right. apply elem_of_cons. destruct Hin; [by left | by right].
      * intros u [-> | Hu]%elem_of_cons; [by exists k | by apply Hall].
    + apply key_lt_false in Hlt.
      destruct (IH _ _ H Hb) as (kv & Hkv & Hin & Hle & Hall).
      exists kv. split_and!; [done | | done |].
      * destruct Hin; [by left |]. right. apply elem_of_cons. by right.
      * intros u [-> | Hu]%elem_of_cons; [| by apply Hall].
        exists k. split; [done | lia].
Qed.

Lemma min_by_key_Ok d best bk rest :
  (∀ u, u ∈ rest → u ∈ dom d) → ∃ v, min_by_key cw d best bk rest = Ok v.
Proof.
  revert best bk. induction rest as [| var rest IH]; intros best bk Hdom;
    simpl; [eauto |].
  assert (Hvar : var ∈ dom d) by (apply Hdom, elem_of_cons; by left).
  apply elem_of_dom in Hvar as [ws Hws].
  unfold mrv_key, domain_get. rewrite Hws. simpl.
  destruct (key_lt _ bk); apply IH; intros u Hu; apply Hdom, elem_of_cons;
    by right.
Qed.

Lemma min_by_key_fuel d best bk rest :
  min_by_key cw d best bk rest ≠ OutOfFuel.
Proof.
  revert best bk. induction rest as [| var rest IH]; intros best bk;
    simpl; [done |].
  unfold mrv_key, domain_get. destruct (d !! var); simpl; [| done].
  by destruct (key_lt _ bk).
Qed.

Lemma unassigned_vars_elem_of (a : list (Var * string)) u :
  u ∈ filter (λ var, dict_mem var a = false) (iter (variables cw)) ↔
  u ∈ variables cw ∧ u ∉ a.*1.
Proof.
  rewrite list_elem_of_filter, elem_of_iter, dict_mem_false. tauto.
Qed.

(** The slot chosen is unassigned and has a smallest domain among the
    unassigned slots. *)
Lemma select_unassigned_variable_spec d a var :
  select_unassigned_variable cw d a = Ok var →
  var ∈ variables cw ∧ var ∉ a.*1 ∧
  ∃ ws, d !! var = Some ws ∧
    ∀ u, u ∈ variables cw → u ∉ a.*1 →
         ∃ us, d !! u = Some us ∧ size ws ≤ size us.
Proof.
  unfold select_unassigned_variable.
  pose proof (unassigned_vars_elem_of a) as Hun.
  destruct (filter _ (iter (variables cw))) as [| first rest]; [done |].
  intros H. inv_obind. rename a0 into k.
  destruct (min_by_key_spec _ _ _ _ _ H Ha) as (kv & Hkv & Hin & Hle & Hall).
  assert (Hvar : var ∈ first :: rest).
  { apply elem_of_cons. destruct Hin; [by left | by right]. }
  apply Hun in Hvar as [Hvar Hna]. split_and!; try done.
  apply mrv_key_Ok in Hkv as (ws & Hws & Hsz). exists ws. split; [done |].
  intros u Hu Hnu.
  assert (Hu' : u ∈ first :: rest) by by apply Hun.
  apply elem_of_cons in Hu' as [-> | Hu'].
  - apply mrv_key_Ok in Ha as (us & Hus & Hsz'). exists us.
    split; [done | lia].
  - destruct (Hall u Hu') as (ku & Hku & Hle').
    apply mrv_key_Ok in Hku as (us & Hus & Hsz'). exists us.
    split; [done | lia].
Qed.

Lemma select_unassigned_variable_Ok d a x :
  variables cw ⊆ dom d → x ∈ variables cw → x ∉ a.*1 →
  ∃ var, select_unassigned_variable cw d a = Ok var.
Proof.
  intros Hdom Hx Hna. unfold select_unassigned_variable.
  pose proof (unassigned_vars_elem_of a) as Hun.
  destruct (filter _ (iter (variables cw))) as [| first rest].
  { exfalso. eapply elem_of_nil, Hun. done. }
  assert (Hfirst : first ∈ dom d).
  { apply Hdom, (Hun first), elem_of_cons. by left. }
  apply elem_of_dom in Hfirst as [ws Hws].
  unfold mrv_key at 1, domain_get. rewrite Hws. simpl.
  apply min_by_key_Ok. intros u Hu.
  apply Hdom, (Hun u), elem_of_cons. by right.
Qed.

Lemma select_unassigned_variable_fuel d a :
  select_unassigned_variable cw d a ≠ OutOfFuel.
Proof.
  unfold select_unassigned_variable.
  destruct (filter _ (iter (variables cw))) as [| first rest]; [done |].
  unfold mrv_key, domain_get. destruct (d !! first); simpl; [| done].
  apply min_by_key_fuel.
Qed.

(** ** Ordering of the candidate words *)

Lemma py_index_opt_fuel w k : py_index_opt w k ≠ OutOfFuel.
Proof. destruct k; simpl; [apply py_index_fuel | done]. Qed.

Lemma count_conflicts_fuel value i j nws :
  count_conflicts value i j nws ≠ OutOfFuel.
Proof.
  induction nws as [| nw nws IH]; simpl; [done |].
  pose proof (py_index_opt_fuel nw j). pose proof (py_index_opt_fuel value i).
  destruct (py_index_opt nw j); simpl; try done.
  destruct (py_index_opt value i); simpl; try done.
  destruct (count_conflicts value i j nws); simpl; done.
Qed.

Lemma constraint_count_loop_fuel d a var value nbs count :
  constraint_count_loop cw d a var value nbs count ≠ OutOfFuel.
Proof.
  revert count. induction nbs as [| nb nbs IH]; intros count; simpl;
    [done |].
  destruct (dict_mem nb a); [apply IH |].
  destruct (overlaps cw !! (var, nb)) as [[| i j] |]; try done.
  unfold domain_get. destruct (d !! nb) as [nws |]; simpl; [| done].
  pose proof (count_conflicts_fuel value i j (iter nws)).
  destruct (count_conflicts value i j (iter nws)); simpl; try done.
Qed.

Lemma with_keys_fuel f values :
  (∀ value, f value ≠ OutOfFuel) → with_keys f values ≠ OutOfFuel.
Proof.
  intros Hf. induction values as [| value values IH]; simpl; [done |].
  specialize (Hf value). destruct (f value); simpl; try done.
  destruct (with_keys f values); simpl; done.
Qed.

Lemma order_domain_values_fuel d var a :
  order_domain_values cw d var a ≠ OutOfFuel.
Proof.
  unfold order_domain_values, domain_get.
  destruct (d !! var) as [ws |]; simpl; [| done].
  pose proof (with_keys_fuel (constraint_count cw d a var) (iter ws)) as H.
  destruct (with_keys _ (iter ws)); simpl; try done.
  destruct H; [| done]. intros value. apply constraint_count_loop_fuel.
Qed.

Lemma order_domain_values_empty d var a :
  d !! var = Some ∅ → order_domain_values cw d var a = Ok [].
Proof.
  intros Hd. unfold order_domain_values, domain_get. rewrite Hd. simpl.
  by rewrite iter_empty.
Qed.

End Selection.

(** ** Termination of the search *)

Section SearchTermination.

Context (cw : Crossword) {order : IterOrder}.

Lemma unassigned_dict_set a var value :
  var ∈ variables cw → var ∉ a.*1 →
  unassigned cw (dict_set var value a) < unassigned cw a.
Proof.
  intros Hvar Hna. unfold unassigned. apply subset_size.
  apply strict_spec_alt. split.
  - intros x. rewrite !elem_of_difference, !elem_of_list_to_set.
    rewrite dict_set_keys. tauto.
  - intros Heq. assert (Hin : var ∈ variables cw ∖ list_to_set a.*1).
    { apply elem_of_difference. by rewrite elem_of_list_to_set. }
    rewrite <- Heq in Hin. apply elem_of_difference in Hin as [_ Hin].
    apply Hin. rewrite elem_of_list_to_set, dict_set_keys. by left.
Qed.

Lemma try_values_fuel rec n l var values h :
  (∀ l1 h1 res h1', rec l1 h1 = (res, h1') → frame h1 h1') →
  (∀ l1 h1, l1 ∈ dom h1 → unassigned cw (heap_get h1 l1) < n →
            (rec l1 h1).1 ≠ OutOfFuel) →
  l ∈ dom h → var ∈ variables cw → var ∉ (heap_get h l).*1 →
  unassigned cw (heap_get h l) ≤ n →
  (try_values cw rec l var values h).1 ≠ OutOfFuel.
Proof.
  intros rec_frame rec_fuel. revert h.
  induction values as [| value values IH]; intros h Hl Hvar Hna Hn;
    cbn [try_values]; [done |].
  pose proof (heap_branch h l var value) as Hb.
  unfold heap_copy in *. simpl in Hb. rewrite Hb. clear Hb.
  pose proof (frame_insert_fresh h (dict_set var value (heap_get h l)))
    as Hf2.
  set (l' := fresh (dom h)) in *.
  set (h2 := <[l' := dict_set var value (heap_get h l)]> h) in *.
  assert (Hget : heap_get h2 l' = dict_set var value (heap_get h l))
    by apply heap_get_insert.
  rewrite Hget.
  pose proof (consistent_loop_fuel cw
    (dict_set var value (heap_get h l)) ∅
    (dict_set var value (heap_get h l))) as Hcf.
  fold (consistent cw (dict_set var value (heap_get h l))) in Hcf.
  destruct (consistent cw (dict_set var value (heap_get h l)))
    as [[] | e |]; try done.
  - assert (Hrf : (rec l' h2).1 ≠ OutOfFuel).
    { apply rec_fuel.
      - apply elem_of_dom. unfold h2. rewrite lookup_insert_eq. eauto.
      - rewrite Hget.
        pose proof (unassigned_dict_set (heap_get h l) var value Hvar Hna).
        lia. }
    destruct (rec l' h2) as [[result | e |] h3] eqn:Hrec; try done.
    destruct (truthy h3 result); [done |].
    apply rec_frame in Hrec.
    assert (Hf3 : frame h h3) by by eapply frame_trans.
    apply IH; rewrite ?(frame_heap_get _ _ _ Hf3 Hl); try done.
    by eapply frame_dom.
  - apply IH; rewrite ?(frame_heap_get _ _ _ Hf2 Hl); try done.
    by eapply frame_dom.
Qed.

Lemma backtrack_fuel_enough fuel d l h :
  l ∈ dom h → unassigned cw (heap_get h l) < fuel →
  (backtrack cw fuel d l h).1 ≠ OutOfFuel.
Proof.
  revert l h. induction fuel as [| fuel IH]; intros l h Hl Hn;
    cbn [backtrack]; [lia |].
  destruct (assignment_complete cw (heap_get h l)); [done |].
  pose proof (select_unassigned_variable_fuel cw d (heap_get h l)) as Hsf.
  destruct (select_unassigned_variable cw d (heap_get h l))
    as [var | e |] eqn:Hsel; try done.
  apply select_unassigned_variable_spec in Hsel as (Hvar & Hna & _).
  pose proof (order_domain_values_fuel cw d var (heap_get h l)) as Hof.
  destruct (order_domain_values cw d var (heap_get h l))
    as [values | e |]; try done.
  apply (try_values_fuel _ fuel); try done.
  - intros ? ? ? ?. apply backtrack_frame.
  - lia.
Qed.

End SearchTermination.

(** * The claims *)

(** C7. After [enforce_node_consistency] the domain of every slot is
    exactly the set of its former candidates whose length is the slot's
    length, and a second call changes nothing. *)
Theorem enforce_node_consistency_correct
    (order : IterOrder) (d : gmap Var (gset string)) :
  (∀ var,
     enforce_node_consistency d !! var =
     (filter (λ word, String.length word = var_length var) <$> (d !! var))) ∧
  enforce_node_consistency (enforce_node_consistency d) =
  enforce_node_consistency d.
Proof.
  split; [| apply enforce_node_consistency_idemp].
  intros var. rewrite enforce_node_consistency_lookup.
  destruct (d !! var) as [ws |]; simpl; [| done]. f_equal.
  apply set_eq. intros w. rewrite elem_of_node_filter, elem_of_filter. tauto.
Qed.

(** C8. None of [enforce_node_consistency], [revise] and [ac3] adds a
    word to a domain: afterwards the slots with a domain are the same
    and every domain is a subset of what it was. *)
Theorem domains_only_shrink
    (order : IterOrder) (cw : Crossword) (d : gmap Var (gset string))
    (x y : Var) (arcs : option (list (Var * Var))) :
  shrinks d (enforce_node_consistency d) ∧
  shrinks d (revise cw x y d).2 ∧
  shrinks d (ac3 cw arcs d).2.
Proof.
  split_and!; [| apply revise_shrinks | apply ac3_shrinks].
  split; [apply enforce_node_consistency_dom |].
  intros var ws'. rewrite enforce_node_consistency_lookup.
  destruct (d !! var) as [ws |]; simpl; [| done].
  intros [= <-]. exists ws. split; [done |].
  intros w. rewrite elem_of_node_filter. tauto.
Qed.

Lemma supported_shrinks d d' y i j w :
  shrinks d d' → supported d' y i j w → supported d y i j w.
Proof.
  intros [_ Hs] (ys' & w' & c & Hy & Hw' & Hg & Hg').
  destruct (Hs _ _ Hy) as (ys & Hys & Hsub).
  exists ys, w', c. split_and!; try done. set_solver.
Qed.

(** Every arc of the queue is revised before the loop returns [True]: a
    word without a partner does not survive. *)
Lemma ac3_loop_removes_unsupported
    (order : IterOrder) (cw : Crossword) fuel queue d d' x y i j w xs' :
  ac3_loop cw fuel queue d = (Ok true, d') →
  (x, y) ∈ queue →
  overlaps cw !! (x, y) = Some (Offsets (Some i) (Some j)) →
  ¬ supported d y i j w →
  d' !! x = Some xs' → w ∉ xs'.
Proof.
  revert queue d.
  induction fuel as [| fuel IH]; intros [| [a b] queue] d;
    cbn [ac3_loop]; try done.
  1, 2: by intros _ Hin%elem_of_nil.
  destruct (revise cw a b d) as [r d1] eqn:Hrev.
  apply revise_cases in Hrev.
  destruct Hrev as [r Hr Hsup | i0 j0 xs rem Ho Hx Hrem Hsound Hcompl].
  - destruct r as [[] | e |]; try done.
    intros Hloop Hin Hov Hns Hx'.
    apply elem_of_cons in Hin as [[= -> ->] | Hin]; [| by eapply IH].
    pose proof (ac3_loop_shrinks cw fuel queue d) as [_ Hsh].
    rewrite Hloop in Hsh. simpl in Hsh.
    destruct (Hsh _ _ Hx') as (xs & Hxs & Hsub).
    intros Hw. apply Hns. eapply Hsup; [done | done | done |]. set_solver.
  - unfold domain_get. rewrite lookup_insert_eq.
    case_decide as Hsz; [done |].
    intros Hloop Hin Hov Hns Hx'.
    assert (Hns1 : ¬ supported (<[a := xs ∖ rem]> d) y i j w).
    { intros Hs. apply Hns. eapply supported_shrinks; [| done].
      eapply shrinks_insert; [done | set_solver]. }
    apply elem_of_cons in Hin as [[= -> ->] | Hin].
    + rewrite Ho in Hov. injection Hov as -> ->.
      pose proof (ac3_loop_shrinks cw fuel
        (queue ++ ((λ z, (z, a)) <$> iter (neighbors cw a ∖ {[b]})))
        (<[a := xs ∖ rem]> d)) as [_ Hsh].
      rewrite Hloop in Hsh. simpl in Hsh.
      destruct (Hsh _ _ Hx') as (xs1 & Hxs1 & Hsub).
      rewrite lookup_insert_eq in Hxs1. injection Hxs1 as <-.
      intros Hw. assert (Hw1 : w ∈ xs ∖ rem) by set_solver.
      apply elem_of_difference in Hw1 as [Hw1 Hnrem].
      by destruct (Hcompl w Hw1).
    + eapply IH; [done | | done | done | done].
      apply elem_of_app. by left.
Qed.

(** C10. [ac3] given an empty sequence of arcs does what [ac3] given no
    arcs does, whatever the outcome: the queue starts with the arcs
    [(x, y)] for every slot [x] with a domain and every neighbour [y] of
    [x] other than [x], and these arcs are processed.  So when the call
    returns [True] no word without a partner is left on any of these
    arcs, and when it returns [False] a domain has been emptied: it is
    not a call that processes no arc and returns [True]. *)
Theorem ac3_empty_arcs_is_none
    (order : IterOrder) (cw : Crossword) (d d' : gmap Var (gset string))
    (r : outcome bool) :
  ac3 cw (Some []) d = (r, d') →
  ac3 cw None d = (r, d') ∧
  ac3_loop cw (ac3_fuel cw (all_arcs cw d) d) (all_arcs cw d) d = (r, d') ∧
  (∀ x y, (x, y) ∈ all_arcs cw d ↔
          x ∈ dom d ∧ y ∈ neighbors cw x ∧ x ≠ y) ∧
  (r = Ok true →
   ∀ x y i j xs' w,
     x ∈ dom d → y ∈ neighbors cw x → x ≠ y →
     overlaps cw !! (x, y) = Some (Offsets (Some i) (Some j)) →
     ¬ supported d y i j w →
     d' !! x = Some xs' → w ∉ xs') ∧
  (r = Ok false →
   ∃ x xs, d !! x = Some xs ∧ xs ≠ ∅ ∧ d' !! x = Some ∅).
Proof.
  intros Hac.
  assert (Harcs : ∀ x y, (x, y) ∈ all_arcs cw d ↔
                         x ∈ dom d ∧ y ∈ neighbors cw x ∧ x ≠ y).
  { intros x y. unfold all_arcs. rewrite list_elem_of_bind. split.
    - intros (x' & Hin & Hx'). apply elem_of_iter in Hx'.
      apply list_elem_of_bind in Hin as (y' & Hin & Hy').
      apply elem_of_iter in Hy'.
      case_decide; [| by apply elem_of_nil in Hin].
      apply list_elem_of_singleton in Hin as [= -> ->]. done.
    - intros (Hx & Hy & Hxy). exists x. split; [| by apply elem_of_iter].
      apply list_elem_of_bind. exists y. split; [| by apply elem_of_iter].
      rewrite decide_True by done. by apply list_elem_of_singleton. }
  unfold ac3 in *. cbv zeta in *.
  split_and!; [done | done | done | |].
  - intros -> x y i j xs' w Hx Hy Hxy Ho Hns Hx'.
    eapply ac3_loop_removes_unsupported; try done. by apply Harcs.
  - intros ->. by eapply ac3_loop_false.
Qed.

Lemma ac3_empty_arcs_is_none_witness :
  let d := @enforce_node_consistency elements_order (init_domains mismatch) in
  let d' := (@ac3 mismatch elements_order (Some []) d).2 in
  @ac3 mismatch elements_order (Some []) d = (Ok false, d') ∧
  @ac3 mismatch elements_order None d = (Ok false, d') ∧
  @ac3_loop mismatch elements_order
     (ac3_fuel mismatch (@all_arcs mismatch elements_order d) d)
     (@all_arcs mismatch elements_order d) d = (Ok false, d') ∧
  (∀ x y, (x, y) ∈ @all_arcs mismatch elements_order d ↔
          x ∈ dom d ∧ y ∈ neighbors mismatch x ∧ x ≠ y) ∧
  (Ok false = Ok true →
   ∀ x y i j xs' w,
     x ∈ dom d → y ∈ neighbors mismatch x → x ≠ y →
     overlaps mismatch !! (x, y) = Some (Offsets (Some i) (Some j)) →
     ¬ supported d y i j w →
     d' !! x = Some xs' → w ∉ xs') ∧
  (Ok false = Ok false →
   ∃ x xs, d !! x = Some xs ∧ xs ≠ ∅ ∧ d' !! x = Some ∅).
Proof.
  intros d d'.
  assert (Hac : @ac3 mismatch elements_order (Some []) d = (Ok false, d')).
  { vm_compute. reflexivity. }
  split; [exact Hac |].
  exact (ac3_empty_arcs_is_none elements_order mismatch d d' (Ok false) Hac).
Defined.

(** C6. When the table holds no pair of offsets for [(x, y)], the
    unpacking in [revise] raises [TypeError]; the domains are left as
    they were, but the call does not return [False]. *)
Theorem revise_no_overlap_raises
    (order : IterOrder) (cw : Crossword) (d : gmap Var (gset string))
    (x y : Var) :
  overlaps cw !! (x, y) = Some NoOverlap →
  revise cw x y d = (Raise TypeError, d).
Proof. intros Ho. unfold revise. by rewrite Ho. Qed.

Lemma revise_no_overlap_raises_witness :
  @revise parallel elements_order slot_across slot_below
     (init_domains parallel) =
  (Raise TypeError, init_domains parallel).
Proof. by apply revise_no_overlap_raises. Defined.

(** Had the table held a pair with an absent offset, the guard of
    [revise] would have made the call a no-op. *)
Lemma revise_absent_offset_noop
    (order : IterOrder) (cw : Crossword) (d : gmap Var (gset string))
    (x y : Var) (i j : option nat) :
  overlaps cw !! (x, y) = Some (Offsets i j) →
  i = None ∨ j = None →
  revise cw x y d = (Ok false, d).
Proof.
  intros Ho Hij. unfold revise. rewrite Ho.
  destruct i, j; try done. by destruct Hij.
Qed.

(** C2, as stated, fails: a domain that is empty before the pass does
    not make [ac3] return [False]. *)
Lemma ac3_empty_domain_counterexample :
  let d := @enforce_node_consistency elements_order (init_domains lonely) in
  d !! slot_long = Some ∅ ∧
  @ac3 lonely elements_order None d = (Ok true, d).
Proof. vm_compute. done. Qed.

(** C2, amended. When [ac3] returns, it returns [False] exactly when a
    domain that had a word before the pass has none after it. *)
Theorem ac3_false_iff_emptied
    (order : IterOrder) (cw : Crossword) (arcs : option (list (Var * Var)))
    (d d' : gmap Var (gset string)) (b : bool) :
  ac3 cw arcs d = (Ok b, d') →
  b = false ↔ ∃ x xs, d !! x = Some xs ∧ xs ≠ ∅ ∧ d' !! x = Some ∅.
Proof.
  unfold ac3. intros H. destruct b.
  - split; [done |]. intros (x & xs & Hx & Hne & Hx').
    by destruct (ac3_loop_true _ _ _ _ _ H x xs Hx Hne).
  - split; [| done]. intros _. by eapply ac3_loop_false.
Qed.

Lemma ac3_false_iff_emptied_witness :
  let d := @enforce_node_consistency elements_order (init_domains mismatch) in
  false = false ↔
  ∃ x xs, d !! x = Some xs ∧ xs ≠ ∅ ∧
          (@ac3 mismatch elements_order None d).2 !! x = Some ∅.
Proof.
  intros d.
  apply (ac3_false_iff_emptied elements_order mismatch None d).
  vm_compute. done.
Defined.

(** C4. When [ac3()] returns [True] on a puzzle whose overlaps and
    neighbours are symmetric, every candidate left for a slot has, for
    each neighbour, a partner among the neighbour's candidates with the
    same letter at the overlap. *)
Theorem ac3_arc_consistency
    (order : IterOrder) (cw : Crossword) (d d' : gmap Var (gset string))
    (x y : Var) (i j : nat) (xs : gset string) (w : string) :
  symmetric_structure cw →
  ac3 cw None d = (Ok true, d') →
  y ∈ neighbors cw x → x ≠ y →
  overlaps cw !! (x, y) = Some (Offsets (Some i) (Some j)) →
  d' !! x = Some xs → w ∈ xs →
  ∃ ys w' c, d' !! y = Some ys ∧ w' ∈ ys ∧
             String.get i w = Some c ∧ String.get j w' = Some c.
Proof.
  intros Hsym Hac Hy Hxy Ho Hx Hw.
  apply (ac3_loop_arc_consistent cw Hsym) in Hac;
    [| apply all_arcs_invariant].
  destruct (Hac x y) as [Hin | Hcons]; try done.
  - by apply elem_of_dom_2 in Hx.
  - by apply elem_of_nil in Hin.
  - by eapply Hcons.
Qed.

Lemma crossing_symmetric : symmetric_structure crossing.
Proof.
  split.
  - intros x y. simpl. unfold crossing_neighbors.
    repeat case_decide; subst; set_solver.
  - intros x y i j. simpl.
    rewrite !lookup_insert_Some, !lookup_singleton_Some. naive_solver.
Qed.

Lemma ac3_arc_consistency_witness :
  let d := @enforce_node_consistency elements_order (init_domains crossing) in
  ∃ ys w' c,
    (@ac3 crossing elements_order None d).2 !! slot_down = Some ys ∧
    w' ∈ ys ∧
    String.get 0 "CAT" = Some c ∧ String.get 0 w' = Some c.
Proof.
  intros d.
  apply (ac3_arc_consistency elements_order crossing d
           (@ac3 crossing elements_order None d).2
           slot_across slot_down 0 0
           {["CAT"; "COW"; "DOG"]}%string "CAT"%string).
  - apply crossing_symmetric.
  - vm_compute. reflexivity.
  - vm_compute. reflexivity.
  - vm_compute. discriminate.
  - vm_compute. reflexivity.
  - vm_compute. reflexivity.
  - vm_compute. reflexivity.
Defined.

(** C5. For a dict [a] and a puzzle whose table has an entry for every
    slot and each of its neighbours, [consistent(a)] returns [True]
    exactly when every assigned word has the length of its slot, different
    slots hold different words, and the words of assigned neighbours
    have the same letter at the overlap. *)
Theorem consistent_iff
    (order : IterOrder) (cw : Crossword) (a : list (Var * string)) :
  NoDup a.*1 →
  neighbors_unpack cw →
  consistent cw a = Ok true ↔
  lengths_ok a ∧ words_distinct a ∧ neighbors_agree cw a.
Proof.
  intros Hnd Hunpack. split; [by apply consistent_meaning |].
  intros (Hlen & Hdist & Hagree). apply consistent_true. split.
  - by apply meaning_items_ok.
  - by apply words_distinct_NoDup.
Qed.

Lemma crossing_unpack : neighbors_unpack crossing.
Proof.
  intros x y. simpl. unfold crossing_neighbors.
  repeat case_decide; subst; set_solver.
Qed.

Lemma consistent_iff_witness :
  let a := [(slot_across, "CAT"); (slot_down, "COW")]%string in
  @consistent crossing elements_order a = Ok true ↔
  lengths_ok a ∧ words_distinct a ∧ neighbors_agree crossing a.
Proof.
  intros a. apply (consistent_iff elements_order crossing a).
  - vm_compute. repeat constructor; set_solver.
  - apply crossing_unpack.
Defined.

(** C9. [backtrack] leaves every dict that exists when it is called as it
    was, the one it is given included: a candidate is tried on a copy,
    which is a new object. *)
Theorem backtrack_branch_isolation
    (order : IterOrder) (cw : Crossword) (fuel : nat)
    (d : gmap Var (gset string))
    (assignment : nat) (h : gmap nat (list (Var * string))) (l : nat) :
  l ∈ dom h →
  (backtrack cw fuel d assignment h).2 !! l = h !! l.
Proof.
  intros Hl.
  destruct (backtrack cw fuel d assignment h) as [res h'] eqn:Hb.
  apply backtrack_frame in Hb. simpl. by apply Hb.
Qed.

Lemma backtrack_branch_isolation_witness :
  let d := @enforce_node_consistency elements_order (init_domains crossing) in
  let h : gmap nat (list (Var * string)) := {[ 0 := [] ]} in
  (@backtrack crossing elements_order 3 d 0 h).2 !! 0 = h !! 0.
Proof.
  intros d h.
  apply (backtrack_branch_isolation elements_order crossing 3 d 0 h 0).
  vm_compute. reflexivity.
Defined.

(** [solve] once [ac3] has returned. *)
Lemma solve_after_ac3
    (order : IterOrder) (cw : Crossword) (d d2 : gmap Var (gset string))
    (h : gmap nat (list (Var * string))) (b : bool) :
  ac3 cw None (enforce_node_consistency d) = (Ok b, d2) →
  solve cw d h =
  mkRun
    (backtrack cw (backtrack_fuel cw) d2 (fresh (dom h))
       (<[fresh (dom h) := []]> h)).1
    d2
    (backtrack cw (backtrack_fuel cw) d2 (fresh (dom h))
       (<[fresh (dom h) := []]> h)).2
    [Call_enforce_node_consistency; Call_ac3 None;
     Call_backtrack (fresh (dom h))].
Proof.
  intros Hac. unfold solve. rewrite Hac. unfold heap_new.
  cbv beta iota zeta.
  by destruct (backtrack cw (backtrack_fuel cw) d2 (fresh (dom h))
                 (<[fresh (dom h) := []]> h)).
Qed.

(** C1. When [solve] returns an assignment, every slot of the puzzle has a
    word in it, every word has the length of its slot, different slots
    hold different words, and the words of neighbouring slots have the
    same letter at the overlap. *)
Theorem solve_complete_consistent
    (order : IterOrder) (cw : Crossword) (d : gmap Var (gset string))
    (h : gmap nat (list (Var * string))) (l : nat) :
  run_result (solve cw d h) = Ok (Some l) →
  ∃ a, run_heap (solve cw d h) !! l = Some a ∧
       complete cw a ∧
       lengths_ok a ∧ words_distinct a ∧ neighbors_agree cw a.
Proof.
  destruct (ac3 cw None (enforce_node_consistency d)) as [[b | e |] d2]
    eqn:Hac.
  2, 3: by unfold solve; rewrite Hac.
  rewrite (solve_after_ac3 _ _ _ _ _ _ Hac).
  destruct (backtrack cw (backtrack_fuel cw) d2 (fresh (dom h))
              (<[fresh (dom h) := []]> h)) as [result h2] eqn:Hb.
  simpl. intros ->.
  apply backtrack_sound in Hb as (a & Ha & Hcompl & Hnd & Hcons).
  - exists a. split; [done |].
    split; [by apply (assignment_complete_true cw a) |].
    by apply (consistent_meaning cw a).
  - apply elem_of_dom. rewrite lookup_insert_eq. eauto.
  - rewrite heap_get_insert. apply checked_nil.
Qed.

Lemma solve_complete_consistent_witness :
  ∃ a, run_heap (@solve crossing elements_order (init_domains crossing) ∅)
         !! 3 = Some a ∧
       complete crossing a ∧
       lengths_ok a ∧ words_distinct a ∧ neighbors_agree crossing a.
Proof.
  apply (solve_complete_consistent elements_order crossing
           (init_domains crossing) ∅ 3).
  vm_compute. reflexivity.
Defined.

(** [solve] always comes to an end. *)
Lemma solve_total
    (order : IterOrder) (cw : Crossword) (d : gmap Var (gset string))
    (h : gmap nat (list (Var * string))) :
  run_result (solve cw d h) ≠ OutOfFuel.
Proof.
  pose proof (ac3_total cw None (enforce_node_consistency d)) as Htot.
  destruct (ac3 cw None (enforce_node_consistency d)) as [[b | e |] d2]
    eqn:Hac.
  2, 3: by unfold solve; rewrite Hac.
  rewrite (solve_after_ac3 _ _ _ _ _ _ Hac).
  cbn [run_result]. apply backtrack_fuel_enough.
  - apply elem_of_dom. rewrite lookup_insert_eq. eauto.
  - rewrite heap_get_insert. unfold unassigned, backtrack_fuel. simpl.
    apply Nat.lt_succ_r, subseteq_size. set_solver.
Qed.

(** C3, as stated, fails: [ac3] reports failure and [backtrack] is
    called all the same. *)
Lemma solve_short_circuit_counterexample :
  let d := init_domains mismatch in
  (@ac3 mismatch elements_order None
     (@enforce_node_consistency elements_order d)).1 = Ok false ∧
  run_calls (@solve mismatch elements_order d ∅) =
    [Call_enforce_node_consistency; Call_ac3 None; Call_backtrack 0].
Proof. vm_compute. done. Qed.

(** C3, amended. [solve] runs node consistency, then [ac3] with no
    arcs, and then, whatever [ac3] returned, calls [backtrack] on a new
    empty dict and returns what it returns.  When [ac3] returned [False]
    and the domains are those of the puzzle's slots, that is [None]: the
    search picks an emptied slot and has no word to try. *)
Theorem solve_always_searches
    (order : IterOrder) (cw : Crossword) (d d' : gmap Var (gset string))
    (h : gmap nat (list (Var * string))) (b : bool) :
  ac3 cw None (enforce_node_consistency d) = (Ok b, d') →
  run_calls (solve cw d h) =
    [Call_enforce_node_consistency; Call_ac3 None;
     Call_backtrack (heap_new h).1] ∧
  run_result (solve cw d h) =
    (backtrack cw (backtrack_fuel cw) d' (heap_new h).1 (heap_new h).2).1 ∧
  (b = false → dom d = variables cw → run_result (solve cw d h) = Ok None).
Proof.
  intros Hac. rewrite (solve_after_ac3 _ _ _ _ _ _ Hac).
  unfold heap_new. cbn [run_result run_calls fst snd].
  split_and!; [done | done |].
  destruct (backtrack cw (backtrack_fuel cw) d' (fresh (dom h))
              (<[fresh (dom h) := []]> h)) as [result h2] eqn:Hb.
  cbn [fst]. intros -> Hdom.
  assert (Hdom' : dom d' = variables cw).
  { pose proof (ac3_shrinks cw None (enforce_node_consistency d)) as [Hd _].
    rewrite Hac in Hd. simpl in Hd.
    by rewrite Hd, enforce_node_consistency_dom. }
  unfold ac3 in Hac. apply ac3_loop_false in Hac as (x & xs & Hx & _ & Hx').
  assert (Hxv : x ∈ variables cw).
  { rewrite <- Hdom'. by apply elem_of_dom_2 in Hx'. }
  unfold backtrack_fuel in Hb. cbn [backtrack] in Hb.
  rewrite heap_get_insert in Hb.
  assert (Hnc : assignment_complete cw [] = false).
  { apply not_true_is_false. intros Hc%assignment_complete_true.
    destruct (Hc x Hxv) as [w Hw]. by apply elem_of_nil in Hw. }
  rewrite Hnc in Hb.
  destruct (select_unassigned_variable_Ok cw d' [] x) as [var Hsel].
  { by rewrite Hdom'. }
  { done. }
  { apply not_elem_of_nil. }
  rewrite Hsel in Hb.
  apply select_unassigned_variable_spec in Hsel
    as (Hvar & _ & ws & Hws & Hmin).
  destruct (Hmin x Hxv) as (us & Hus & Hle); [apply not_elem_of_nil |].
  rewrite Hx' in Hus. injection Hus as <-. rewrite size_empty in Hle.
  assert (ws = ∅) as ->.
  { apply leibniz_equiv, size_empty_inv. lia. }
  rewrite (order_domain_values_empty cw d' var [] Hws) in Hb.
  simpl in Hb. by injection Hb as <- _.
Qed.

Lemma solve_always_searches_witness :
  let d := init_domains mismatch in
  let h : gmap nat (list (Var * string)) := ∅ in
  let d' := (@ac3 mismatch elements_order None
               (@enforce_node_consistency elements_order d)).2 in
  run_calls (@solve mismatch elements_order d h) =
    [Call_enforce_node_consistency; Call_ac3 None;
     Call_backtrack (heap_new h).1] ∧
  run_result (@solve mismatch elements_order d h) =
    (@backtrack mismatch elements_order (backtrack_fuel mismatch) d'
       (heap_new h).1 (heap_new h).2).1 ∧
  (false = false → dom d = variables mismatch →
   run_result (@solve mismatch elements_order d h) = Ok None).
Proof.
  intros d h d'.
  apply (solve_always_searches elements_order mismatch d d' h false).
  vm_compute. reflexivity.
Defined.

(** * Further properties *)

(** ** Construction and node consistency *)

(** X1. After [__init__] and [enforce_node_consistency], the domain of a
    slot of the puzzle is exactly the set of the words of the word list
    that have the slot's length, and a slot that is not in the puzzle has
    no domain. *)
Theorem init_then_node_consistency
    (order : IterOrder) (cw : Crossword) (var : Var) :
  enforce_node_consistency (init_domains cw) !! var =
  if decide (var ∈ variables cw)
  then Some (filter (λ word, String.length word = var_length var) (words cw))
  else None.
Proof.
  rewrite enforce_node_consistency_lookup. unfold init_domains.
  rewrite lookup_gset_to_gmap.
  case_decide as Hv.
  - rewrite option_guard_True by done. simpl. f_equal.
    apply set_eq. intros w. rewrite elem_of_node_filter, elem_of_filter. tauto.
  - by rewrite option_guard_False.
Qed.

(** ** Revision *)

(** X2. When [revise(x, y)] returns, the domains of the slots other than
    [x] are untouched, the result is [True] exactly when the domains
    changed, and the words left for [x] are exactly its former candidates
    that have a partner among the candidates of [y]. *)
Theorem revise_exact
    (order : IterOrder) (cw : Crossword) (d d' : gmap Var (gset string))
    (x y : Var) (b : bool) :
  revise cw x y d = (Ok b, d') →
  (∀ z, z ≠ x → d' !! z = d !! z) ∧
  (b = true ↔ d' ≠ d) ∧
  (∀ i j xs,
     overlaps cw !! (x, y) = Some (Offsets (Some i) (Some j)) →
     d !! x = Some xs →
     ∃ xs', d' !! x = Some xs' ∧
            ∀ w, w ∈ xs' ↔ w ∈ xs ∧ supported d y i j w).
Proof.
  intros Hrev. apply revise_cases in Hrev.
  inversion Hrev as [r Hr Hsup | i j xs rem Ho Hx Hrem Hsound Hcompl]; subst.
  - destruct b; [done |]. split_and!; [done | done |].
    intros i j xs Ho Hx. exists xs. split; [done |].
    intros w. split; [| tauto]. intros Hw. split; [done |]. by eapply Hsup.
  - split_and!.
    + intros z Hz. by rewrite lookup_insert_ne.
    + split; [| done]. intros _ Heq.
      apply set_choose_L in Hrem as [w Hw].
      assert (Hl : <[x := xs ∖ rem]> d !! x = Some xs) by (by rewrite Heq).
      rewrite lookup_insert_eq in Hl. injection Hl as Hl.
      destruct (Hsound w Hw) as [Hin _]. rewrite <- Hl in Hin. set_solver.
    + intros i' j' xs' Ho' Hx'. simplify_eq.
      exists (xs ∖ rem). rewrite lookup_insert_eq. split; [done |].
      intros w. rewrite elem_of_difference. split.
      * intros [Hw Hn]. split; [done |]. by destruct (Hcompl w Hw).
      * intros [Hw Hs]. split; [done |]. intros Hr. by apply (Hsound w Hr).
Qed.

(** ** The propagation loop *)

(** X3. The loop of [ac3] ends within
    len(queue) + (1 + largest number of neighbours of a slot) * (number of
    words in all domains) iterations. *)
Theorem ac3_loop_terminates
    (order : IterOrder) (cw : Crossword) (fuel : nat)
    (queue : list (Var * Var)) (d : gmap Var (gset string)) :
  length queue + S (max_degree cw d) * total_size d ≤ fuel →
  ∃ r d', ac3_loop cw fuel queue d = (r, d') ∧ r ≠ OutOfFuel.
Proof.
  intros Hfuel. pose proof (ac3_loop_fuel cw fuel queue d Hfuel) as H.
  destruct (ac3_loop cw fuel queue d) as [r d']. by exists r, d'.
Qed.

Lemma ac3_loop_terminates_witness :
  let d := @enforce_node_consistency elements_order (init_domains crossing) in
  ∃ r d', @ac3_loop crossing elements_order 20
            (@all_arcs crossing elements_order d) d
          = (r, d') ∧ r ≠ OutOfFuel.
Proof.
  intros d.
  apply (ac3_loop_terminates elements_order crossing 20
           (@all_arcs crossing elements_order d) d).
  vm_compute. lia.
Defined.

Lemma elem_of_all_arcs
    (order : IterOrder) (cw : Crossword) (d : gmap Var (gset string)) x y :
  (x, y) ∈ all_arcs cw d ↔ x ∈ dom d ∧ y ∈ neighbors cw x ∧ x ≠ y.
Proof.
  unfold all_arcs. rewrite list_elem_of_bind. split.
  - intros (x' & Hin & Hx'). apply elem_of_iter in Hx'.
    apply list_elem_of_bind in Hin as (y' & Hin & Hy').
    apply elem_of_iter in Hy'.
    case_decide; [| by apply elem_of_nil in Hin].
    apply list_elem_of_singleton in Hin as [= -> ->]. done.
  - intros (Hx & Hy & Hxy). exists x. split; [| by apply elem_of_iter].
    apply list_elem_of_bind. exists y. split; [| by apply elem_of_iter].
    rewrite decide_True by done. by apply list_elem_of_singleton.
Qed.

(** X4. When no slot with a domain has a neighbour other than itself,
    [ac3()] returns [True] and changes no domain. *)
Theorem ac3_without_crossings
    (order : IterOrder) (cw : Crossword) (d : gmap Var (gset string)) :
  (∀ x y, x ∈ dom d → y ∈ neighbors cw x → x = y) →
  ac3 cw None d = (Ok true, d).
Proof.
  intros Hno. unfold ac3.
  assert (all_arcs cw d = []) as ->; [| by destruct (ac3_fuel cw [] d)].
  apply elem_of_nil_inv. intros [x y] (Hx & Hy & Hxy)%elem_of_all_arcs.
  apply Hxy. by apply Hno.
Qed.

Lemma ac3_without_crossings_witness :
  @ac3 parallel elements_order None (init_domains parallel) =
  (Ok true, init_domains parallel).
Proof.
  apply (ac3_without_crossings elements_order parallel).
  intros x y _ Hy. simpl in Hy. by apply not_elem_of_empty in Hy.
Defined.

(** ** Ordering of the candidate words *)

Lemma insert_by_key_perm x l : insert_by_key x l ≡ₚ x :: l.
Proof.
  induction l as [| y l IH]; simpl; [done |].
  case_decide; [done |]. rewrite IH. apply Permutation_swap.
Qed.

Lemma sort_by_key_perm l : sort_by_key l ≡ₚ l.
Proof.
  induction l as [| x l IH]; simpl; [done |].
  by rewrite insert_by_key_perm, IH.
Qed.

Lemma insert_by_key_sorted x l :
  StronglySorted (λ p q : nat * string, p.1 ≤ q.1) l →
  StronglySorted (λ p q : nat * string, p.1 ≤ q.1) (insert_by_key x l).
Proof.
  induction 1 as [| y l Hs IH Hall]; simpl.
  - repeat constructor.
  - case_decide as Hxy.
    + constructor; [by constructor |]. constructor; [done |].
      eapply Forall_impl; [done |]. simpl. intros; lia.
    + constructor; [done |].
      rewrite insert_by_key_perm. constructor; [lia | done].
Qed.

Lemma sort_by_key_sorted l :
  StronglySorted (λ p q : nat * string, p.1 ≤ q.1) (sort_by_key l).
Proof.
  induction l as [| x l IH]; simpl; [constructor |].
  by apply insert_by_key_sorted.
Qed.

Lemma with_keys_Ok f values ks :
  with_keys f values = Ok ks →
  ks.*2 = values ∧ Forall (λ p : nat * string, f p.2 = Ok p.1) ks.
Proof.
  revert ks. induction values as [| value values IH]; simpl; intros ks H.
  - by injection H as <-.
  - inv_obind. injection H as <-. destruct (IH _ Ha0) as [Hv Hall].
    split; [by rewrite fmap_cons, Hv |]. by constructor.
Qed.

Lemma order_domain_values_spec
    (order : IterOrder) (cw : Crossword) (d : gmap Var (gset string))
    (var : Var) (a : list (Var * string)) (values : list string) :
  order_domain_values cw d var a = Ok values →
  ∃ ws counts,
    d !! var = Some ws ∧
    NoDup values ∧ (∀ w, w ∈ values ↔ w ∈ ws) ∧
    Forall2 (λ value n, constraint_count cw d a var value = Ok n)
      values counts ∧
    StronglySorted le counts.
Proof.
  unfold order_domain_values, domain_get. intros H.
  destruct (d !! var) as [ws |] eqn:Hd; [| done]. simpl in H.
  inv_obind. rename a0 into ks. injection H as <-.
  apply with_keys_Ok in Ha as [Hvals Hkeys].
  assert (Hperm : (sort_by_key ks).*2 ≡ₚ iter ws).
  { by rewrite sort_by_key_perm, Hvals. }
  exists ws, (sort_by_key ks).*1. split_and!.
  - done.
  - rewrite Hperm. apply NoDup_iter.
  - intros w. by rewrite Hperm, elem_of_iter.
  - apply Forall2_fmap, Forall_Forall2_diag.
    rewrite sort_by_key_perm. done.
  - eapply StronglySorted_fmap; [| apply sort_by_key_sorted]. done.
Qed.

(** X5. [order_domain_values] returns every word of the slot's domain
    exactly once, in ascending order of [constraint_count]. *)
Theorem order_domain_values_sorted
    (order : IterOrder) (cw : Crossword) (d : gmap Var (gset string))
    (var : Var) (a : list (Var * string)) (values : list string) :
  order_domain_values cw d var a = Ok values →
  ∃ ws counts,
    d !! var = Some ws ∧
    NoDup values ∧ (∀ w, w ∈ values ↔ w ∈ ws) ∧
    Forall2 (λ value n, constraint_count cw d a var value = Ok n)
      values counts ∧
    StronglySorted le counts.
Proof. apply order_domain_values_spec. Qed.

Lemma order_domain_values_sorted_witness :
  let d := @enforce_node_consistency elements_order (init_domains crossing) in
  ∃ ws counts,
    d !! slot_across = Some ws ∧
    NoDup ["COW"; "CAT"; "DOG"]%string ∧
    (∀ w, w ∈ ["COW"; "CAT"; "DOG"]%string ↔ w ∈ ws) ∧
    Forall2
      (λ value n,
         @constraint_count crossing elements_order d [] slot_across value
         = Ok n)
      ["COW"; "CAT"; "DOG"]%string counts ∧
    StronglySorted le counts.
Proof.
  intros d.
  apply (order_domain_values_sorted elements_order crossing d slot_across []).
  vm_compute. reflexivity.
Defined.

(** ** Selection of the next slot *)

Lemma key_lt_true_le k1 k2 : key_lt k1 k2 = true → key_le k1 k2.
Proof.
  unfold key_lt, key_le. intros H. apply orb_true_iff in H as [H | H].
  - apply Nat.ltb_lt in H. by left.
  - apply andb_true_iff in H as [H1 H2].
    apply Nat.eqb_eq in H1. apply Z.ltb_lt in H2. right. lia.
Qed.

Lemma key_lt_false_le k1 k2 : key_lt k1 k2 = false → key_le k2 k1.
Proof.
  unfold key_lt, key_le. intros H. apply orb_false_iff in H as [H1 H2].
  apply Nat.ltb_ge in H1. apply andb_false_iff in H2 as [H2 | H2].
  - apply Nat.eqb_neq in H2. left. lia.
  - apply Z.ltb_ge in H2. destruct (decide (k1.1 = k2.1)); [right | left]; lia.
Qed.

Lemma key_le_refl k : key_le k k.
Proof. right. lia. Qed.

Lemma key_le_trans k1 k2 k3 : key_le k1 k2 → key_le k2 k3 → key_le k1 k3.
Proof. unfold key_le. lia. Qed.

Lemma min_by_key_least
    (order : IterOrder) (cw : Crossword) d best bk rest v :
  min_by_key cw d best bk rest = Ok v →
  mrv_key cw d best = Ok bk →
  ∃ kv, mrv_key cw d v = Ok kv ∧ key_le kv bk ∧
        ∀ u, u ∈ rest → ∃ ku, mrv_key cw d u = Ok ku ∧ key_le kv ku.
Proof.
  revert best bk. induction rest as [| var rest IH]; intros best bk; simpl.
  - intros [= <-] Hb. exists bk. split_and!; [done | apply key_le_refl |].
    intros u Hu. by apply elem_of_nil in Hu.
  - intros H Hb. inv_obind. rename a into k.
    destruct (key_lt k bk) eqn:Hlt.
    + apply key_lt_true_le in Hlt.
      destruct (IH _ _ H Ha) as (kv & Hkv & Hle & Hall).
      exists kv. split_and!; [done | by eapply key_le_trans |].
      intros u [-> | Hu]%elem_of_cons; [by exists k | by apply Hall].
    + apply key_lt_false_le in Hlt.
      destruct (IH _ _ H Hb) as (kv & Hkv & Hle & Hall).
      exists kv. split_and!; [done | done |].
      intros u [-> | Hu]%elem_of_cons; [| by apply Hall].
      exists k. split; [done | by eapply key_le_trans].
Qed.

Lemma min_by_key_KeyError
    (order : IterOrder) (cw : Crossword) d best bk rest u :
  u ∈ rest → d !! u = None →
  min_by_key cw d best bk rest = Raise KeyError.
Proof.
  revert best bk. induction rest as [| var rest IH]; intros best bk Hu Hd.
  { by apply elem_of_nil in Hu. }
  simpl. unfold mrv_key at 1, domain_get.
  destruct (d !! var) as [ws |] eqn:Hvar; simpl; [| done].
  apply elem_of_cons in Hu as [-> | Hu]; [congruence |].
  destruct (key_lt _ bk); by apply IH.
Qed.

(** X6. The slot returned by [select_unassigned_variable] is a slot of
    the puzzle that is not in the assignment; no unassigned slot has a
    smaller domain, and none with a domain of the same size has more
    neighbours. *)
Theorem select_unassigned_variable_least
    (order : IterOrder) (cw : Crossword) (d : gmap Var (gset string))
    (a : list (Var * string)) (var : Var) :
  select_unassigned_variable cw d a = Ok var →
  var ∈ variables cw ∧ var ∉ a.*1 ∧
  ∀ u, u ∈ variables cw → u ∉ a.*1 →
    ∃ ws us, d !! var = Some ws ∧ d !! u = Some us ∧
      (size ws < size us ∨
       (size ws = size us ∧
        size (neighbors cw u) ≤ size (neighbors cw var))).
Proof.
  intros Hsel.
  destruct (select_unassigned_variable_spec cw d a var Hsel)
    as (Hvar & Hna & _).
  split_and!; try done.
  unfold select_unassigned_variable in Hsel.
  pose proof (unassigned_vars_elem_of cw a) as Hun.
  destruct (filter _ (iter (variables cw))) as [| first rest]; [done |].
  inv_obind. rename a0 into k.
  destruct (min_by_key_least _ _ _ _ _ _ _ Hsel Ha) as (kv & Hkv & Hle & Hall).
  assert (Hkey : ∀ u ku, mrv_key cw d u = Ok ku → key_le kv ku →
            ∃ ws us, d !! var = Some ws ∧ d !! u = Some us ∧
              (size ws < size us ∨
               (size ws = size us ∧
                size (neighbors cw u) ≤ size (neighbors cw var)))).
  { intros u ku Hku Hleu. unfold mrv_key, domain_get in Hkv, Hku.
    destruct (d !! var) as [ws |]; [| done].
    destruct (d !! u) as [us |]; [| done].
    simpl in *. injection Hkv as <-. injection Hku as <-.
    exists ws, us. split_and!; try done.
    unfold key_le in Hleu. simpl in Hleu. lia. }
  intros u Hu Hnu.
  assert (Hu' : u ∈ first :: rest) by by apply Hun.
  apply elem_of_cons in Hu' as [-> | Hu'].
  - by eapply Hkey.
  - destruct (Hall u Hu') as (ku & Hku & Hleu). by eapply Hkey.
Qed.

Lemma select_unassigned_variable_least_witness :
  let d := @enforce_node_consistency elements_order (init_domains mismatch) in
  slot_long ∈ variables mismatch ∧ slot_long ∉ ([] : list (Var * string)).*1 ∧
  ∀ u, u ∈ variables mismatch → u ∉ ([] : list (Var * string)).*1 →
    ∃ ws us, d !! slot_long = Some ws ∧ d !! u = Some us ∧
      (size ws < size us ∨
       (size ws = size us ∧
        size (neighbors mismatch u) ≤ size (neighbors mismatch slot_long))).
Proof.
  intros d.
  apply (select_unassigned_variable_least elements_order mismatch d []).
  vm_compute. reflexivity.
Defined.

(** X7. [select_unassigned_variable] raises [ValueError] exactly when
    every slot of the puzzle is in the assignment, and [KeyError] exactly
    when some unassigned slot has no domain. *)
Theorem select_unassigned_variable_raises
    (order : IterOrder) (cw : Crossword) (d : gmap Var (gset string))
    (a : list (Var * string)) :
  (select_unassigned_variable cw d a = Raise ValueError ↔
   ∀ v, v ∈ variables cw → v ∈ a.*1) ∧
  (select_unassigned_variable cw d a = Raise KeyError ↔
   ∃ u, u ∈ variables cw ∧ u ∉ a.*1 ∧ d !! u = None).
Proof.
  unfold select_unassigned_variable.
  pose proof (unassigned_vars_elem_of cw a) as Hun.
  destruct (filter _ (iter (variables cw))) as [| first rest].
  - split; split; try done.
    + intros _ v Hv. destruct (decide (v ∈ a.*1)) as [| Hn]; [done |].
      exfalso. eapply elem_of_nil, Hun. done.
    + intros (u & Hu & Hnu & _). exfalso. eapply elem_of_nil, Hun. done.
  - assert (Hfirst : first ∈ variables cw ∧ first ∉ a.*1).
    { apply Hun, elem_of_cons. by left. }
    destruct Hfirst as [Hf Hnf].
    unfold mrv_key at 1 2, domain_get.
    destruct (d !! first) as [ws |] eqn:Hdf; simpl.
    + split.
      * split.
        -- intros H. exfalso.
           clear -H. revert H. generalize first at 1.
           generalize (size ws, (- Z.of_nat (size (neighbors cw first)))%Z).
           induction rest as [| var rest IH]; intros bk best; simpl; [done |].
           unfold mrv_key, domain_get. destruct (d !! var); simpl; [| done].
           destruct (key_lt _ bk); apply IH.
        -- intros H. by destruct (Hnf (H first Hf)).
      * split.
        -- intros H.
           destruct (decide (Forall (λ u, u ∈ dom d) rest)) as [Hall | Hex].
           ++ rewrite Forall_forall in Hall.
              destruct (min_by_key_Ok cw d first
                (size ws, (- Z.of_nat (size (neighbors cw first)))%Z)
                rest Hall) as [v Hv].
              congruence.
           ++ apply not_Forall_Exists in Hex; [| apply _].
              apply Exists_exists in Hex as (u & Hu & Hnd).
              exists u.
              assert (Hu' : u ∈ variables cw ∧ u ∉ a.*1).
              { apply Hun, elem_of_cons. by right. }
              destruct Hu'. split_and!; try done.
              by apply not_elem_of_dom.
        -- intros (u & Hu & Hnu & Hd).
           assert (Hu' : u ∈ first :: rest) by by apply Hun.
           apply elem_of_cons in Hu' as [-> | Hu']; [congruence |].
           by eapply min_by_key_KeyError.
    + split; split; try done.
      * intros H. by destruct (Hnf (H first Hf)).
      * intros _. by exists first.
Qed.

(** ** What the search returns *)

Lemma within_nil d : within d [].
Proof. intros v w Hin. by apply elem_of_nil in Hin. Qed.

Lemma within_cons d v w a :
  (∃ ws, d !! v = Some ws ∧ w ∈ ws) → within d a → within d ((v, w) :: a).
Proof.
  intros Hv Ha v' w' [[= -> ->] | Hin]%elem_of_cons; [done | by apply Ha].
Qed.

Lemma within_app d a1 a2 : within d a1 → within d a2 → within d (a1 ++ a2).
Proof.
  intros H1 H2 v w [Hin | Hin]%elem_of_app; [by apply H1 | by apply H2].
Qed.

Section SearchResult.

Context (cw : Crossword) {order : IterOrder}.
Variable d : gmap Var (gset string).

Lemma try_values_extends rec l var values h r h' :
  (∀ l1 h1 res h1', rec l1 h1 = (res, h1') → frame h1 h1') →
  (∀ l1 h1 r1 h1',
     rec l1 h1 = (Ok (Some r1), h1') → l1 ∈ dom h1 →
     ∃ rest, h1' !! r1 = Some (heap_get h1 l1 ++ rest) ∧ within d rest) →
  try_values cw rec l var values h = (Ok (Some r), h') →
  l ∈ dom h → var ∉ (heap_get h l).*1 →
  (∀ value, value ∈ values → ∃ ws, d !! var = Some ws ∧ value ∈ ws) →
  ∃ rest, h' !! r = Some (heap_get h l ++ rest) ∧ within d rest.
Proof.
  intros rec_frame rec_ext. revert h.
  induction values as [| value values IH]; intros h; cbn [try_values];
    [done |].
  intros H Hl Hna Hvals.
  pose proof (heap_branch h l var value) as Hb.
  unfold heap_copy in *. simpl in Hb. rewrite Hb in H. clear Hb.
  pose proof (frame_insert_fresh h (dict_set var value (heap_get h l)))
    as Hf2.
  set (l' := fresh (dom h)) in *.
  set (h2 := <[l' := dict_set var value (heap_get h l)]> h) in *.
  assert (Hget : heap_get h2 l' = dict_set var value (heap_get h l))
    by apply heap_get_insert.
  assert (Hrest : ∀ value0, value0 ∈ values →
                    ∃ ws, d !! var = Some ws ∧ value0 ∈ ws).
  { intros value0 Hin. apply Hvals, elem_of_cons. by right. }
  rewrite Hget in H.
  destruct (consistent cw (dict_set var value (heap_get h l)))
    as [[] | e |] eqn:Hcons; try done.
  - destruct (rec l' h2) as [[result | e |] h3] eqn:Hrec; try done.
    destruct (truthy h3 result).
    + injection H as -> ->.
      destruct (rec_ext _ _ _ _ Hrec) as (rest & Hr & Hw).
      { apply elem_of_dom. unfold h2. rewrite lookup_insert_eq. eauto. }
      rewrite Hget, (dict_set_fresh _ _ _ Hna), <- app_assoc in Hr.
      eexists. split; [done |]. simpl. apply within_cons; [| done].
      apply Hvals, elem_of_cons. by left.
    + apply rec_frame in Hrec.
      assert (Hf3 : frame h h3) by by eapply frame_trans.
      rewrite <- (frame_heap_get _ _ _ Hf3 Hl).
      apply IH; rewrite ?(frame_heap_get _ _ _ Hf3 Hl); try done.
      by eapply frame_dom.
  - rewrite <- (frame_heap_get _ _ _ Hf2 Hl).
    apply IH; rewrite ?(frame_heap_get _ _ _ Hf2 Hl); try done.
    by eapply frame_dom.
Qed.

Lemma order_domain_values_elem_of var a values value :
  order_domain_values cw d var a = Ok values →
  value ∈ values ↔ ∃ ws, d !! var = Some ws ∧ value ∈ ws.
Proof.
  intros H.
  destruct (order_domain_values_spec _ _ _ _ _ _ H)
    as (ws & counts & Hd & _ & Hin & _).
  rewrite Hin. split; [eauto |]. intros (ws' & Hd' & Hv). congruence.
Qed.

Lemma backtrack_extends fuel l h r h' :
  backtrack cw fuel d l h = (Ok (Some r), h') →
  l ∈ dom h →
  ∃ rest, h' !! r = Some (heap_get h l ++ rest) ∧ within d rest.
Proof.
  revert l h r h'. induction fuel as [| fuel IH]; intros l h r h';
    cbn [backtrack]; [done |].
  destruct (assignment_complete cw (heap_get h l)).
  { intros [= <- <-] Hl. exists []. rewrite app_nil_r.
    split; [by apply heap_get_lookup | apply within_nil]. }
  destruct (select_unassigned_variable cw d (heap_get h l))
    as [var | e |] eqn:Hsel; try done.
  apply select_unassigned_variable_spec in Hsel as (_ & Hna & _).
  destruct (order_domain_values cw d var (heap_get h l))
    as [values | e |] eqn:Hord; try done.
  intros H Hl.
  eapply try_values_extends; try done.
  - intros ? ? ? ?. apply backtrack_frame.
  - intros value Hv. by apply (order_domain_values_elem_of _ _ _ _ Hord).
Qed.

End SearchResult.

(** ** No exception on a well-formed puzzle *)

Lemma string_get_lt w k :
  k < String.length w → ∃ c, String.get k w = Some c.
Proof.
  revert k. induction w as [| c w IH]; intros k; simpl; [lia |].
  destruct k as [| k]; [eauto |]. intros Hk. apply IH. lia.
Qed.

Lemma py_index_lt w k : k < String.length w → ∃ c, py_index w k = Ok c.
Proof.
  intros [c Hc]%string_get_lt. exists c. by apply py_index_Ok.
Qed.

Lemma node_consistent_shrinks d d' :
  shrinks d d' → node_consistent d → node_consistent d'.
Proof.
  intros [_ Hs] Hnc x ws' w Hx Hw.
  destruct (Hs _ _ Hx) as (ws & Hws & Hsub). eapply Hnc; [done |]. set_solver.
Qed.

Lemma enforce_node_consistency_node_consistent (order : IterOrder) d :
  node_consistent (enforce_node_consistency d).
Proof.
  intros x ws w. rewrite enforce_node_consistency_lookup.
  destruct (d !! x) as [ws0 |]; simpl; [| done]. intros [= <-].
  by intros [_ Hw]%elem_of_node_filter.
Qed.

Section WellFormed.

Context (cw : Crossword) {order : IterOrder}.
Hypothesis Hwf : well_formed cw.

Lemma any_match_no_raise x_word i j ys :
  i < String.length x_word →
  (∀ y_word, y_word ∈ ys → j < String.length y_word) →
  ∃ b, any_match x_word i j ys = Ok b.
Proof.
  intros Hi. induction ys as [| y_word ys IH]; intros Hj; simpl; [eauto |].
  destruct (py_index_lt _ _ Hi) as [c ->]. simpl.
  destruct (py_index_lt y_word j) as [c' ->].
  { apply Hj, elem_of_cons. by left. }
  simpl. case_decide; [eauto |]. apply IH.
  intros y Hy. apply Hj, elem_of_cons. by right.
Qed.

Lemma revise_scan_no_raise d i j y ys xs acc :
  d !! y = Some ys →
  (∀ w, w ∈ xs → i < String.length w) →
  (∀ w, w ∈ ys → j < String.length w) →
  ∃ rem, revise_scan d i j y xs acc = Ok rem.
Proof.
  intros Hy Hi Hj. revert acc.
  induction xs as [| x_word xs IH]; intros acc; simpl; [eauto |].
  unfold domain_get. rewrite Hy. simpl.
  destruct (any_match_no_raise x_word i j (iter ys)) as [b ->].
  { apply Hi, elem_of_cons. by left. }
  { intros w Hw. by apply Hj, elem_of_iter. }
  simpl. apply IH. intros w Hw. apply Hi, elem_of_cons. by right.
Qed.

Lemma revise_no_raise d x y :
  y ∈ neighbors cw x → x ∈ dom d → y ∈ dom d → node_consistent d →
  ∃ b, (revise cw x y d).1 = Ok b.
Proof.
  intros Hy [xs Hxs]%elem_of_dom [ys Hys]%elem_of_dom Hnc.
  destruct (wf_offsets _ Hwf x y Hy) as (i & j & Ho & Hi & Hj).
  unfold revise, domain_get. rewrite Ho, Hxs.
  destruct (revise_scan_no_raise d i j y ys (iter xs) ∅ Hys) as [rem ->].
  - intros w Hw%elem_of_iter. by rewrite (Hnc x xs w).
  - intros w Hw. by rewrite (Hnc y ys w).
  - case_decide; eauto.
Qed.

Lemma neighbor_arcs_all d : neighbor_arcs cw d (all_arcs cw d).
Proof. intros x y (Hx & Hy & _)%elem_of_all_arcs. done. Qed.

Lemma neighbor_arcs_step d d' x y queue :
  variables cw ⊆ dom d → dom d' = dom d →
  neighbor_arcs cw d ((x, y) :: queue) →
  neighbor_arcs cw d'
    (queue ++ ((λ z, (z, x)) <$> iter (neighbors cw x ∖ {[y]}))).
Proof.
  intros Hvars Hdom Hq a b [Hin | Hin]%elem_of_app.
  - rewrite Hdom. apply Hq, elem_of_cons. by right.
  - apply list_elem_of_fmap in Hin as (z & [= -> ->] & Hz).
    apply elem_of_iter, elem_of_difference in Hz as [Hz _].
    split.
    + by apply (neighbors_sym _ (wf_symmetric _ Hwf)).
    + rewrite Hdom. apply Hvars. by eapply wf_neighbors.
Qed.

Lemma ac3_loop_no_raise fuel queue d e :
  variables cw ⊆ dom d → node_consistent d → neighbor_arcs cw d queue →
  (ac3_loop cw fuel queue d).1 ≠ Raise e.
Proof.
  revert queue d.
  induction fuel as [| fuel IH]; intros [| [x y] queue] d Hvars Hnc Hq;
    cbn [ac3_loop]; try done.
  destruct (Hq x y) as [Hy Hx]; [apply elem_of_cons; by left |].
  assert (Hyd : y ∈ dom d) by (by eapply Hvars, wf_neighbors).
  destruct (revise_no_raise d x y Hy Hx Hyd Hnc) as [b Hb].
  destruct (revise cw x y d) as [r d1] eqn:Hrev. simpl in Hb. subst r.
  pose proof (revise_shrinks cw x y d) as Hs. rewrite Hrev in Hs.
  simpl in Hs.
  assert (Hdom : dom d1 = dom d) by apply Hs.
  destruct b.
  - unfold domain_get.
    destruct (d1 !! x) as [xs |] eqn:Hx1.
    2: { apply not_elem_of_dom in Hx1. by rewrite Hdom in Hx1. }
    case_decide; [done |].
    apply IH.
    + by rewrite Hdom.
    + by eapply node_consistent_shrinks.
    + by eapply neighbor_arcs_step.
  - apply IH.
    + by rewrite Hdom.
    + by eapply node_consistent_shrinks.
    + intros a b Hin. rewrite Hdom. apply Hq, elem_of_cons. by right.
Qed.

Lemma ac3_no_raise d :
  variables cw ⊆ dom d → node_consistent d →
  ∃ b, (ac3 cw None d).1 = Ok b.
Proof.
  intros Hvars Hnc.
  pose proof (ac3_total cw None d) as Htot.
  pose proof (λ e, ac3_loop_no_raise (ac3_fuel cw (all_arcs cw d) d)
                (all_arcs cw d) d e Hvars Hnc (neighbor_arcs_all d)) as Hnr.
  unfold ac3 in *.
  destruct (ac3_loop cw _ (all_arcs cw d) d) as [[b | e |] d']; simpl in *.
  - eauto.
  - by destruct (Hnr e).
  - done.
Qed.

End WellFormed.

Lemma within_lengths_ok d a :
  node_consistent d → within d a → lengths_ok a.
Proof.
  intros Hnc Hw v w Hin. destruct (Hw v w Hin) as (ws & Hd & Hws).
  by eapply Hnc.
Qed.

Lemma within_dict_set d a var value :
  var ∉ a.*1 → within d a → (∃ ws, d !! var = Some ws ∧ value ∈ ws) →
  within d (dict_set var value a).
Proof.
  intros Hna Ha Hv. rewrite dict_set_fresh by done.
  apply within_app; [done |]. apply within_cons; [done | apply within_nil].
Qed.

Section WellFormedSearch.

Context (cw : Crossword) {order : IterOrder}.
Hypothesis Hwf : well_formed cw.

Lemma consistent_neighbors_no_raise a var w nbs :
  NoDup a.*1 → lengths_ok a → (var, w) ∈ a →
  (∀ nb, nb ∈ nbs → nb ∈ neighbors cw var) →
  ∃ b, consistent_neighbors cw a var nbs = Ok b.
Proof.
  intros Hnd Hlen Hvar. induction nbs as [| nb nbs IH]; intros Hnbs; simpl;
    [eauto |].
  assert (IH' : ∃ b, consistent_neighbors cw a var nbs = Ok b).
  { apply IH. intros nb' Hnb'. apply Hnbs, elem_of_cons. by right. }
  destruct (dict_mem nb a) eqn:Hmem; [| done].
  apply dict_mem_true, list_elem_of_fmap in Hmem as ([nb' w'] & Heq & Hin).
  simpl in Heq. subst nb'.
  destruct (wf_offsets _ Hwf var nb) as (i & j & Ho & Hi & Hj).
  { apply Hnbs, elem_of_cons. by left. }
  rewrite Ho, (dict_get_Ok a var w Hnd Hvar). simpl.
  destruct (py_index_lt w i) as [c ->]; [by rewrite (Hlen var w) |]. simpl.
  rewrite (dict_get_Ok a nb w' Hnd Hin). simpl.
  destruct (py_index_lt w' j) as [c' ->]; [by rewrite (Hlen nb w') |]. simpl.
  case_decide; eauto.
Qed.

Lemma consistent_loop_no_raise a seen items :
  NoDup a.*1 → lengths_ok a → (∀ item, item ∈ items → item ∈ a) →
  ∃ b, consistent_loop cw a seen items = Ok b.
Proof.
  intros Hnd Hlen. revert seen.
  induction items as [| [var word] items IH]; intros seen Hitems; simpl;
    [eauto |].
  case_decide; [eauto |]. case_decide; [eauto |].
  destruct (consistent_neighbors_no_raise a var word
              (iter (neighbors cw var)) Hnd Hlen) as [b ->].
  { apply Hitems, elem_of_cons. by left. }
  { intros nb Hnb. by apply elem_of_iter in Hnb. }
  simpl. destruct b; [| eauto]. apply IH.
  intros item Hin. apply Hitems, elem_of_cons. by right.
Qed.

Lemma consistent_no_raise a :
  NoDup a.*1 → lengths_ok a → ∃ b, consistent cw a = Ok b.
Proof. intros Hnd Hlen. by apply consistent_loop_no_raise. Qed.

Lemma count_conflicts_no_raise value i j nws :
  i < String.length value →
  (∀ nw, nw ∈ nws → j < String.length nw) →
  ∃ n, count_conflicts value (Some i) (Some j) nws = Ok n.
Proof.
  intros Hi. induction nws as [| nw nws IH]; intros Hj; simpl; [eauto |].
  destruct (py_index_lt nw j) as [c' ->].
  { apply Hj, elem_of_cons. by left. }
  simpl. destruct (py_index_lt _ _ Hi) as [c ->]. simpl.
  destruct IH as [n ->]; [| simpl; eauto].
  intros nw' Hnw'. apply Hj, elem_of_cons. by right.
Qed.

Lemma constraint_count_loop_no_raise d a var value nbs count :
  variables cw ⊆ dom d → node_consistent d →
  String.length value = var_length var →
  (∀ nb, nb ∈ nbs → nb ∈ neighbors cw var) →
  ∃ n, constraint_count_loop cw d a var value nbs count = Ok n.
Proof.
  intros Hvars Hnc Hlen. revert count.
  induction nbs as [| nb nbs IH]; intros count Hnbs; simpl; [eauto |].
  assert (IH' : ∀ count',
            ∃ n, constraint_count_loop cw d a var value nbs count' = Ok n).
  { intros count'. apply IH. intros nb' Hnb'.
    apply Hnbs, elem_of_cons. by right. }
  destruct (dict_mem nb a); [done |].
  assert (Hnb : nb ∈ neighbors cw var) by (apply Hnbs, elem_of_cons; by left).
  destruct (wf_offsets _ Hwf var nb Hnb) as (i & j & Ho & Hi & Hj).
  rewrite Ho. unfold domain_get.
  assert (Hd : nb ∈ dom d) by (by eapply Hvars, wf_neighbors).
  apply elem_of_dom in Hd as [nws Hnws]. rewrite Hnws. simpl.
  destruct (count_conflicts_no_raise value i j (iter nws)) as [n ->].
  - by rewrite Hlen.
  - intros nw Hnw%elem_of_iter. by rewrite (Hnc nb nws nw).
  - simpl. apply IH'.
Qed.

Lemma with_keys_no_raise f values :
  (∀ value, value ∈ values → ∃ n, f value = Ok n) →
  ∃ ks, with_keys f values = Ok ks.
Proof.
  induction values as [| value values IH]; intros Hf; simpl; [eauto |].
  destruct (Hf value) as [n ->]; [apply elem_of_cons; by left |]. simpl.
  destruct IH as [ks ->]; [| simpl; eauto].
  intros v Hv. apply Hf, elem_of_cons. by right.
Qed.

Lemma order_domain_values_no_raise d var a :
  variables cw ⊆ dom d → node_consistent d → var ∈ variables cw →
  ∃ values, order_domain_values cw d var a = Ok values.
Proof.
  intros Hvars Hnc Hvar. unfold order_domain_values, domain_get.
  assert (Hd : var ∈ dom d) by by apply Hvars.
  apply elem_of_dom in Hd as [ws Hws]. rewrite Hws. simpl.
  destruct (with_keys_no_raise (constraint_count cw d a var) (iter ws))
    as [ks ->]; [| simpl; eauto].
  intros value Hv%elem_of_iter. apply constraint_count_loop_no_raise;
    try done.
  - by eapply Hnc.
  - intros nb Hnb. by apply elem_of_iter in Hnb.
Qed.

Lemma assignment_incomplete a :
  assignment_complete cw a = false →
  ∃ x, x ∈ variables cw ∧ x ∉ a.*1.
Proof.
  unfold assignment_complete. intros H.
  destruct (decide (Forall (λ x, x ∈ a.*1) (iter (variables cw))))
    as [Hall | Hex].
  - rewrite Forall_forall in Hall.
    assert (forallb (λ var, dict_mem var a) (iter (variables cw)) = true);
      [| congruence].
    apply forallb_forall. intros x Hx%list_elem_of_In.
    by apply dict_mem_true, Hall.
  - apply not_Forall_Exists in Hex; [| apply _].
    apply Exists_exists in Hex as (x & Hx%elem_of_iter & Hn). eauto.
Qed.

Lemma try_values_no_raise d rec l var values h e :
  node_consistent d →
  (∀ l1 h1 res h1', rec l1 h1 = (res, h1') → frame h1 h1') →
  (∀ l1 h1 e1, l1 ∈ dom h1 → NoDup (heap_get h1 l1).*1 →
               within d (heap_get h1 l1) → (rec l1 h1).1 ≠ Raise e1) →
  l ∈ dom h → NoDup (heap_get h l).*1 → within d (heap_get h l) →
  var ∉ (heap_get h l).*1 →
  (∀ value, value ∈ values → ∃ ws, d !! var = Some ws ∧ value ∈ ws) →
  (try_values cw rec l var values h).1 ≠ Raise e.
Proof.
  intros Hnc rec_frame rec_nr. revert h.
  induction values as [| value values IH]; intros h Hl Hnd Hw Hna Hvals;
    cbn [try_values]; [done |].
  pose proof (heap_branch h l var value) as Hb.
  unfold heap_copy in *. simpl in Hb. rewrite Hb. clear Hb.
  pose proof (frame_insert_fresh h (dict_set var value (heap_get h l)))
    as Hf2.
  set (l' := fresh (dom h)) in *.
  set (h2 := <[l' := dict_set var value (heap_get h l)]> h) in *.
  assert (Hget : heap_get h2 l' = dict_set var value (heap_get h l))
    by apply heap_get_insert.
  assert (Hrest : ∀ value0, value0 ∈ values →
                    ∃ ws, d !! var = Some ws ∧ value0 ∈ ws).
  { intros value0 Hin. apply Hvals, elem_of_cons. by right. }
  assert (Hnd' : NoDup (dict_set var value (heap_get h l)).*1)
    by by apply dict_set_NoDup.
  assert (Hw' : within d (dict_set var value (heap_get h l))).
  { apply within_dict_set; try done. apply Hvals, elem_of_cons. by left. }
  rewrite Hget.
  destruct (consistent_no_raise (dict_set var value (heap_get h l)))
    as [b ->]; [done | by eapply within_lengths_ok |].
  destruct b.
  - pose proof (rec_nr l' h2) as Hnr. rewrite Hget in Hnr.
    destruct (rec l' h2) as [[result | e' |] h3] eqn:Hrec; try done.
    + destruct (truthy h3 result); [done |].
      apply rec_frame in Hrec.
      assert (Hf3 : frame h h3) by by eapply frame_trans.
      apply IH; rewrite ?(frame_heap_get _ _ _ Hf3 Hl); try done.
      by eapply frame_dom.
    + exfalso. eapply (Hnr e'); try done.
      apply elem_of_dom. unfold h2. rewrite lookup_insert_eq. eauto.
  - apply IH; rewrite ?(frame_heap_get _ _ _ Hf2 Hl); try done.
    by eapply frame_dom.
Qed.

Lemma backtrack_no_raise fuel d l h e :
  variables cw ⊆ dom d → node_consistent d →
  l ∈ dom h → NoDup (heap_get h l).*1 → within d (heap_get h l) →
  (backtrack cw fuel d l h).1 ≠ Raise e.
Proof.
  intros Hvars Hnc. revert l h e.
  induction fuel as [| fuel IH]; intros l h e Hl Hnd Hw; cbn [backtrack];
    [done |].
  destruct (assignment_complete cw (heap_get h l)) eqn:Hc; [done |].
  apply assignment_incomplete in Hc as (x & Hx & Hnx).
  destruct (select_unassigned_variable_Ok cw d (heap_get h l) x Hvars Hx Hnx)
    as [var Hsel].
  rewrite Hsel.
  apply select_unassigned_variable_spec in Hsel as (Hvar & Hna & _).
  destruct (order_domain_values_no_raise d var (heap_get h l) Hvars Hnc Hvar)
    as [values Hord].
  rewrite Hord.
  apply try_values_no_raise with (d := d); try done.
  - intros ? ? ? ?. apply backtrack_frame.
  - intros value Hv. by apply (order_domain_values_elem_of cw d _ _ _ _ Hord).
Qed.

Lemma solve_no_raise d h :
  dom d = variables cw → ∃ result, run_result (solve cw d h) = Ok result.
Proof.
  intros Hdom.
  pose proof (enforce_node_consistency_node_consistent order d) as Hnc.
  assert (Hvars : variables cw ⊆ dom (enforce_node_consistency d)).
  { by rewrite enforce_node_consistency_dom, Hdom. }
  destruct (ac3_no_raise cw Hwf _ Hvars Hnc) as [b Hb].
  destruct (ac3 cw None (enforce_node_consistency d)) as [r d2] eqn:Hac.
  simpl in Hb. subst r.
  pose proof (ac3_shrinks cw None (enforce_node_consistency d)) as Hs.
  rewrite Hac in Hs. simpl in Hs.
  pose proof (solve_total order cw d h) as Htot.
  rewrite (solve_after_ac3 _ _ _ _ _ _ Hac) in *. cbn [run_result] in *.
  pose proof (λ e, backtrack_no_raise (backtrack_fuel cw) d2 (fresh (dom h))
                (<[fresh (dom h) := []]> h) e) as Hnr.
  destruct (backtrack cw (backtrack_fuel cw) d2 (fresh (dom h))
              (<[fresh (dom h) := []]> h)) as [[result | e |] h2];
    simpl in *; [eauto | | done].
  exfalso. apply (Hnr e).
  - destruct Hs as [-> _]. done.
  - by eapply node_consistent_shrinks.
  - apply elem_of_dom. rewrite lookup_insert_eq. eauto.
  - rewrite heap_get_insert. constructor.
  - rewrite heap_get_insert. apply within_nil.
  - done.
Qed.

End WellFormedSearch.

(** ** Completeness of the solver *)

Lemma extends_lengths_ok a s : extends a s → lengths_ok s → lengths_ok a.
Proof. intros He Hs v w Hin. by apply Hs, He. Qed.

Lemma extends_words_distinct a s :
  extends a s → words_distinct s → words_distinct a.
Proof. intros He Hs v1 w1 v2 w2 H1 H2. apply Hs; by apply He. Qed.

Lemma extends_neighbors_agree cw a s :
  extends a s → neighbors_agree cw s → neighbors_agree cw a.
Proof.
  intros He Hs v w nb w' i j H1 H2. apply Hs; by apply He.
Qed.

Lemma extends_dict_set a s var value :
  var ∉ a.*1 → extends a s → (var, value) ∈ s →
  extends (dict_set var value a) s.
Proof.
  intros Hna He Hin. rewrite dict_set_fresh by done.
  intros v w [H | [= -> ->]%list_elem_of_singleton]%elem_of_app;
    [by apply He | done].
Qed.

Lemma within_node_consistency (order : IterOrder) d s :
  lengths_ok s → within d s → within (enforce_node_consistency d) s.
Proof.
  intros Hlen Hw v w Hin. destruct (Hw v w Hin) as (ws & Hd & Hws).
  exists (node_filter v ws). rewrite enforce_node_consistency_lookup, Hd.
  split; [done |]. apply elem_of_node_filter. split; [done | by apply Hlen].
Qed.

Section Completeness.

Context (cw : Crossword) {order : IterOrder}.
Hypothesis Hwf : well_formed cw.

Lemma well_formed_unpack : neighbors_unpack cw.
Proof.
  intros x y Hy. destruct (wf_offsets _ Hwf x y Hy) as (i & j & Ho & _).
  eauto.
Qed.

(** A revision never removes the word a solution gives to the slot. *)
Lemma revise_keeps_solution d x y s :
  y ∈ neighbors cw x → complete cw s → neighbors_agree cw s →
  within d s → within (revise cw x y d).2 s.
Proof.
  intros Hy Hcompl Hagree Hw.
  destruct (revise cw x y d) as [r d'] eqn:Hrev. apply revise_cases in Hrev.
  destruct Hrev as [r Hr Hsup | i j xs rem Ho Hx Hrem Hsound Hcompl'];
    [done |].
  simpl. intros v w Hin. destruct (Hw v w Hin) as (ws & Hd & Hws).
  destruct (decide (v = x)) as [-> | Hne].
  2: { exists ws. by rewrite lookup_insert_ne. }
  rewrite Hx in Hd. injection Hd as <-.
  exists (xs ∖ rem). rewrite lookup_insert_eq. split; [done |].
  apply elem_of_difference. split; [done |]. intros Hr.
  apply (Hsound w Hr).
  destruct (Hcompl y) as [w' Hin']; [by eapply wf_neighbors |].
  destruct (Hw y w' Hin') as (ys & Hdy & Hys).
  destruct (Hagree x w y w' i j Hin Hin' Hy Ho) as (c & Hc & Hc').
  by exists ys, w', c.
Qed.

Lemma ac3_loop_keeps_solution fuel queue d s :
  (∀ x y, (x, y) ∈ queue → y ∈ neighbors cw x) →
  complete cw s → neighbors_agree cw s →
  within d s → within (ac3_loop cw fuel queue d).2 s.
Proof.
  intros Hq Hcompl Hagree. revert queue d Hq.
  induction fuel as [| fuel IH]; intros [| [x y] queue] d Hq Hw;
    cbn [ac3_loop]; try done.
  assert (Hy : y ∈ neighbors cw x) by (apply Hq, elem_of_cons; by left).
  pose proof (revise_keeps_solution d x y s Hy Hcompl Hagree Hw) as Hw'.
  destruct (revise cw x y d) as [[[] | e |] d1]; simpl in *; try done.
  - destruct (domain_get d1 x) as [xs | e |]; simpl; try done.
    case_decide; simpl; [done |]. apply IH; [| done].
    intros a b [Hin | Hin]%elem_of_app.
    + apply Hq, elem_of_cons. by right.
    + apply list_elem_of_fmap in Hin as (z & [= -> ->] & Hz).
      apply elem_of_iter, elem_of_difference in Hz as [Hz _].
      by apply (neighbors_sym _ (wf_symmetric _ Hwf)).
  - apply IH; [| done]. intros a b Hin. apply Hq, elem_of_cons. by right.
Qed.

Lemma ac3_keeps_solution d s :
  complete cw s → neighbors_agree cw s →
  within d s → within (ac3 cw None d).2 s.
Proof.
  intros Hcompl Hagree Hw. unfold ac3.
  apply ac3_loop_keeps_solution; try done.
  by intros x y (_ & Hy & _)%elem_of_all_arcs.
Qed.

Variable d : gmap Var (gset string).

Lemma try_values_complete rec l var values h h' s :
  (∀ l1 h1 res h1', rec l1 h1 = (res, h1') → frame h1 h1') →
  (∀ l1 h1 r1 h1',
     rec l1 h1 = (Ok (Some r1), h1') → l1 ∈ dom h1 →
     ∃ rest, h1' !! r1 = Some (heap_get h1 l1 ++ rest) ∧ within d rest) →
  (∀ l1 h1 h1',
     rec l1 h1 = (Ok None, h1') → l1 ∈ dom h1 →
     NoDup (heap_get h1 l1).*1 → extends (heap_get h1 l1) s → False) →
  try_values cw rec l var values h = (Ok None, h') →
  l ∈ dom h → NoDup (heap_get h l).*1 → var ∉ (heap_get h l).*1 →
  solution cw s → extends (heap_get h l) s →
  ∀ value, value ∈ values → (var, value) ∉ s.
Proof.
  intros rec_frame rec_ext rec_complete. revert h.
  induction values as [| value values IH]; intros h H Hl Hnd Hna Hsol Hext.
  { intros value Hv. by apply elem_of_nil in Hv. }
  cbn [try_values] in H.
  pose proof (heap_branch h l var value) as Hb.
  unfold heap_copy in *. simpl in Hb. rewrite Hb in H. clear Hb.
  pose proof (frame_insert_fresh h (dict_set var value (heap_get h l)))
    as Hf2.
  set (l' := fresh (dom h)) in *.
  set (h2 := <[l' := dict_set var value (heap_get h l)]> h) in *.
  assert (Hget : heap_get h2 l' = dict_set var value (heap_get h l))
    by apply heap_get_insert.
  assert (Hl' : l' ∈ dom h2).
  { apply elem_of_dom. unfold h2. rewrite lookup_insert_eq. eauto. }
  assert (Hnd' : NoDup (dict_set var value (heap_get h l)).*1)
    by by apply dict_set_NoDup.
  rewrite Hget in H.
  assert (Hhead : (var, value) ∉ s ∧
            ∃ h3, frame h h3 ∧
                  try_values cw rec l var values h3 = (Ok None, h')).
  { destruct (consistent cw (dict_set var value (heap_get h l)))
      as [[] | e |] eqn:Hcons; try done.
    - destruct (rec l' h2) as [[result | e |] h3] eqn:Hrec; try done.
      destruct (truthy h3 result) eqn:Htr; [by injection H as -> |].
      split.
      + intros Hin. destruct result as [r |].
        * destruct (rec_ext _ _ _ _ Hrec Hl') as (rest & Hr & _).
          rewrite Hget, (dict_set_fresh _ _ _ Hna) in Hr.
          unfold truthy, heap_get in Htr. rewrite Hr in Htr. simpl in Htr.
          by destruct (heap_get h l).
        * eapply (rec_complete _ _ _ Hrec Hl'); rewrite Hget; [done |].
          by apply extends_dict_set.
      + exists h3. split; [| done]. apply rec_frame in Hrec.
        by eapply frame_trans.
    - split; [| by exists h2]. intros Hin.
      destruct Hsol as (_ & _ & Hlen & Hdist & Hagree).
      assert (He : extends (dict_set var value (heap_get h l)) s)
        by by apply extends_dict_set.
      assert (consistent cw (dict_set var value (heap_get h l)) = Ok true);
        [| congruence].
      apply consistent_true. split.
      + apply meaning_items_ok; [done | apply well_formed_unpack | |].
        * by eapply extends_lengths_ok.
        * by eapply extends_neighbors_agree.
      + apply words_distinct_NoDup; [done |].
        by eapply extends_words_distinct. }
  destruct Hhead as [Hno (h3 & Hf3 & Hrest)].
  intros value0 [-> | Hv]%elem_of_cons; [done |].
  eapply (IH h3); rewrite ?(frame_heap_get _ _ _ Hf3 Hl); try done.
  by eapply frame_dom.
Qed.

Lemma backtrack_complete fuel l h h' s :
  backtrack cw fuel d l h = (Ok None, h') →
  l ∈ dom h → NoDup (heap_get h l).*1 →
  solution cw s → within d s → extends (heap_get h l) s → False.
Proof.
  intros H Hl Hnd Hsol Hw. revert l h h' H Hl Hnd.
  induction fuel as [| fuel IH]; intros l h h' H Hl Hnd Hext;
    cbn [backtrack] in H; [done |].
  destruct (assignment_complete cw (heap_get h l)); [done |].
  destruct (select_unassigned_variable cw d (heap_get h l))
    as [var | e |] eqn:Hsel; try done.
  apply select_unassigned_variable_spec in Hsel as (Hvar & Hna & _).
  destruct (order_domain_values cw d var (heap_get h l))
    as [values | e |] eqn:Hord; try done.
  pose proof Hsol as (_ & Hcompl & _).
  destruct (Hcompl var Hvar) as [w Hin].
  assert (Hnone : ∀ value, value ∈ values → (var, value) ∉ s).
  { eapply (try_values_complete (backtrack cw fuel d)); try done.
    - intros ? ? ? ?. apply backtrack_frame.
    - intros ? ? ? ?. apply backtrack_extends. }
  apply (Hnone w); [| done].
  apply (order_domain_values_elem_of cw d _ _ _ _ Hord). by apply Hw.
Qed.

End Completeness.

(** ** Theorems on the search and on [solve] *)

Lemma within_shrinks d d' a : shrinks d d' → within d' a → within d a.
Proof.
  intros [_ Hs] Hw v w Hin. destruct (Hw v w Hin) as (ws' & Hd' & Hws').
  destruct (Hs _ _ Hd') as (ws & Hd & Hsub). exists ws. split; [done |].
  set_solver.
Qed.

Lemma crossing_well_formed : well_formed crossing.
Proof.
  split.
  - apply crossing_symmetric.
  - intros x y. simpl. unfold crossing_neighbors.
    repeat case_decide; subst; set_solver.
  - intros x y. simpl. unfold crossing_neighbors.
    repeat case_decide; subst; set_solver.
Qed.

Lemma mismatch_well_formed : well_formed mismatch.
Proof.
  split; [split | |].
  - intros x y. simpl. unfold mismatch_neighbors.
    repeat case_decide; subst; set_solver.
  - intros x y i j. simpl.
    rewrite !lookup_insert_Some, !lookup_singleton_Some. naive_solver.
  - intros x y. simpl. unfold mismatch_neighbors.
    repeat case_decide; subst; set_solver.
  - intros x y Hy. simpl in *. unfold mismatch_neighbors in Hy.
    repeat case_decide; subst;
      try (by apply not_elem_of_empty in Hy);
      apply elem_of_singleton in Hy as ->; exists 0, 0; simpl;
      (split_and!; [done | lia | lia]).
Qed.

(** X8. The dict returned by [backtrack] holds the items of the dict it
    was given, in their order, followed by new items whose words are
    candidates of their slots. *)
Theorem backtrack_result_extends
    (order : IterOrder) (cw : Crossword) (fuel : nat)
    (d : gmap Var (gset string)) (l r : nat)
    (h h' : gmap nat (list (Var * string))) :
  backtrack cw fuel d l h = (Ok (Some r), h') →
  l ∈ dom h →
  ∃ rest, h' !! r = Some (heap_get h l ++ rest) ∧ within d rest.
Proof. apply backtrack_extends. Qed.

Lemma backtrack_result_extends_witness :
  let d := @enforce_node_consistency elements_order (init_domains crossing) in
  let h : gmap nat (list (Var * string)) :=
    {[ 0 := [(slot_across, "CAT"%string)] ]} in
  ∃ rest,
    (@backtrack crossing elements_order 3 d 0 h).2 !! 1 =
      Some (heap_get h 0 ++ rest) ∧
    within d rest.
Proof.
  intros d h.
  apply (backtrack_result_extends elements_order crossing 3 d 0 1 h).
  - vm_compute. reflexivity.
  - vm_compute. reflexivity.
Defined.

(** X9. [backtrack] ends: the depth of its recursion is at most one more
    than the number of slots of the puzzle that are not in the
    assignment. *)
Theorem backtrack_terminates
    (order : IterOrder) (cw : Crossword) (fuel : nat)
    (d : gmap Var (gset string)) (l : nat)
    (h : gmap nat (list (Var * string))) :
  l ∈ dom h →
  size (variables cw ∖ list_to_set (heap_get h l).*1) < fuel →
  (backtrack cw fuel d l h).1 ≠ OutOfFuel.
Proof. apply backtrack_fuel_enough. Qed.

Lemma backtrack_terminates_witness :
  let d := @enforce_node_consistency elements_order (init_domains crossing) in
  let h : gmap nat (list (Var * string)) := {[ 0 := [] ]} in
  (@backtrack crossing elements_order 3 d 0 h).1 ≠ OutOfFuel.
Proof.
  intros d h.
  apply (backtrack_terminates elements_order crossing 3 d 0 h).
  - vm_compute. reflexivity.
  - vm_compute. lia.
Defined.

(** X10. On a well-formed puzzle, with a domain for every slot and every
    candidate of the length of its slot, [ac3()] raises no exception. *)
Theorem ac3_never_raises
    (order : IterOrder) (cw : Crossword) (d : gmap Var (gset string)) :
  well_formed cw →
  variables cw ⊆ dom d →
  node_consistent d →
  ∃ b d', ac3 cw None d = (Ok b, d').
Proof.
  intros Hwf Hvars Hnc.
  destruct (ac3_no_raise cw Hwf d Hvars Hnc) as [b Hb].
  destruct (ac3 cw None d) as [r d']. simpl in Hb. subst. eauto.
Qed.

Lemma ac3_never_raises_witness :
  let d := @enforce_node_consistency elements_order (init_domains crossing) in
  ∃ b d', @ac3 crossing elements_order None d = (Ok b, d').
Proof.
  intros d. apply (ac3_never_raises elements_order crossing d).
  - apply crossing_well_formed.
  - unfold d. rewrite enforce_node_consistency_dom.
    unfold init_domains. by rewrite dom_gset_to_gmap.
  - apply enforce_node_consistency_node_consistent.
Defined.

(** X11. On a well-formed puzzle whose domains are those of its slots,
    [solve] raises no exception: it returns an assignment or [None]. *)
Theorem solve_never_raises
    (order : IterOrder) (cw : Crossword) (d : gmap Var (gset string))
    (h : gmap nat (list (Var * string))) :
  well_formed cw →
  dom d = variables cw →
  ∃ result, run_result (solve cw d h) = Ok result.
Proof. intros Hwf. by apply solve_no_raise. Qed.

Lemma solve_never_raises_witness :
  ∃ result,
    run_result (@solve crossing elements_order (init_domains crossing) ∅)
    = Ok result.
Proof.
  apply (solve_never_raises elements_order crossing).
  - apply crossing_well_formed.
  - apply dom_gset_to_gmap.
Defined.

(** X12. On a well-formed puzzle [ac3()] never removes a word that a
    filled grid made of candidates gives to a slot. *)
Theorem ac3_keeps_solutions
    (order : IterOrder) (cw : Crossword) (d : gmap Var (gset string))
    (s : list (Var * string)) :
  well_formed cw →
  complete cw s → neighbors_agree cw s →
  within d s →
  within (ac3 cw None d).2 s.
Proof. intros Hwf. by apply ac3_keeps_solution. Qed.

(** X13. On a well-formed puzzle, when [ac3()] returns [False] no
    assignment of candidates to all the slots agrees on every crossing. *)
Theorem ac3_failure_means_unsolvable
    (order : IterOrder) (cw : Crossword) (d d' : gmap Var (gset string))
    (s : list (Var * string)) :
  well_formed cw →
  dom d = variables cw →
  ac3 cw None d = (Ok false, d') →
  complete cw s → neighbors_agree cw s →
  ¬ within d s.
Proof.
  intros Hwf Hdom Hac Hcompl Hagree Hw.
  pose proof (ac3_keeps_solution cw Hwf d s Hcompl Hagree Hw) as Hw'.
  rewrite Hac in Hw'. simpl in Hw'.
  unfold ac3 in Hac. apply ac3_loop_false in Hac as (x & xs & Hx & Hne & Hx').
  destruct (Hcompl x) as [w Hin].
  { rewrite <- Hdom. by apply elem_of_dom_2 in Hx. }
  destruct (Hw' x w Hin) as (ws & Hd & Hws). rewrite Hx' in Hd.
  injection Hd as <-. by apply not_elem_of_empty in Hws.
Qed.

Lemma crossing_filled_solution :
  solution crossing [(slot_across, "CAT"); (slot_down, "COW")]%string.
Proof.
  assert (Hnd : NoDup [(slot_across, "CAT"); (slot_down, "COW")]%string.*1).
  { vm_compute. repeat constructor; set_solver. }
  split; [done |]. split.
  - apply (@assignment_complete_true crossing elements_order).
    vm_compute. reflexivity.
  - apply (@consistent_meaning crossing elements_order); [done |].
    vm_compute. reflexivity.
Qed.

Lemma crossing_filled_within :
  within (@enforce_node_consistency elements_order (init_domains crossing))
    [(slot_across, "CAT"); (slot_down, "COW")]%string.
Proof.
  apply within_cons; [| apply within_cons; [| apply within_nil]].
  - exists {["CAT"; "COW"; "DOG"]}%string. split; vm_compute; reflexivity.
  - exists {["CAT"; "COW"; "DOG"]}%string. split; vm_compute; reflexivity.
Qed.

Lemma ac3_keeps_solutions_witness :
  let d := @enforce_node_consistency elements_order (init_domains crossing) in
  within (@ac3 crossing elements_order None d).2
    [(slot_across, "CAT"); (slot_down, "COW")]%string.
Proof.
  intros d.
  apply (ac3_keeps_solutions elements_order crossing d).
  - apply crossing_well_formed.
  - apply crossing_filled_solution.
  - apply crossing_filled_solution.
  - apply crossing_filled_within.
Defined.

Lemma mismatch_filled_solution :
  solution mismatch [(slot_across, "CAT"); (slot_long, "CATCH")]%string.
Proof.
  assert (Hnd : NoDup [(slot_across, "CAT"); (slot_long, "CATCH")]%string.*1).
  { vm_compute. repeat constructor; set_solver. }
  split; [done |]. split.
  - apply (@assignment_complete_true mismatch elements_order).
    vm_compute. reflexivity.
  - apply (@consistent_meaning mismatch elements_order); [done |].
    vm_compute. reflexivity.
Qed.

Lemma ac3_failure_means_unsolvable_witness :
  let d := @enforce_node_consistency elements_order (init_domains mismatch) in
  ¬ within d [(slot_across, "CAT"); (slot_long, "CATCH")]%string.
Proof.
  intros d.
  apply (ac3_failure_means_unsolvable elements_order mismatch d
           (@ac3 mismatch elements_order None d).2).
  - apply mismatch_well_formed.
  - unfold d. rewrite enforce_node_consistency_dom.
    unfold init_domains. by rewrite dom_gset_to_gmap.
  - vm_compute. reflexivity.
  - apply mismatch_filled_solution.
  - apply mismatch_filled_solution.
Defined.

Lemma enforce_node_consistency_shrinks (order : IterOrder) d :
  shrinks d (enforce_node_consistency d).
Proof.
  split; [apply enforce_node_consistency_dom |].
  intros var ws'. rewrite enforce_node_consistency_lookup.
  destruct (d !! var) as [ws |]; simpl; [| done].
  intros [= <-]. exists ws. split; [done |].
  intros w. rewrite elem_of_node_filter. tauto.
Qed.

Lemma solve_none_no_solution
    (order : IterOrder) (cw : Crossword) (d : gmap Var (gset string))
    (h : gmap nat (list (Var * string))) (s : list (Var * string)) :
  well_formed cw →
  run_result (solve cw d h) = Ok None →
  solution cw s → ¬ within d s.
Proof.
  intros Hwf Hres Hsol Hw.
  destruct (ac3 cw None (enforce_node_consistency d)) as [[b | e |] d2]
    eqn:Hac.
  2, 3: by unfold solve in Hres; rewrite Hac in Hres.
  rewrite (solve_after_ac3 _ _ _ _ _ _ Hac) in Hres. cbn [run_result] in Hres.
  destruct (backtrack cw (backtrack_fuel cw) d2 (fresh (dom h))
              (<[fresh (dom h) := []]> h)) as [result h2] eqn:Hb.
  simpl in Hres. subst result.
  pose proof Hsol as (_ & Hcompl & Hlen & _ & Hagree).
  eapply (backtrack_complete cw Hwf d2); try done.
  - apply elem_of_dom. rewrite lookup_insert_eq. eauto.
  - rewrite heap_get_insert. constructor.
  - pose proof (ac3_keeps_solution cw Hwf (enforce_node_consistency d) s
                  Hcompl Hagree) as Hk.
    rewrite Hac in Hk. simpl in Hk. apply Hk.
    by apply within_node_consistency.
  - rewrite heap_get_insert. intros v w Hin. by apply elem_of_nil in Hin.
Qed.

(** X14. On a well-formed puzzle, when [solve] returns [None] the puzzle
    has no solution made of words of the word list. *)
Theorem solve_none_means_unsolvable
    (order : IterOrder) (cw : Crossword)
    (h : gmap nat (list (Var * string))) (s : list (Var * string)) :
  well_formed cw →
  run_result (solve cw (init_domains cw) h) = Ok None →
  solution cw s →
  ¬ (∀ v w, (v, w) ∈ s → v ∈ variables cw ∧ w ∈ words cw).
Proof.
  intros Hwf Hres Hsol Hfrom.
  apply (solve_none_no_solution order cw (init_domains cw) h s); try done.
  intros v w Hin. destruct (Hfrom v w Hin) as [Hv Hw].
  exists (words cw). split; [| done].
  unfold init_domains. rewrite lookup_gset_to_gmap.
  by rewrite option_guard_True.
Qed.

Lemma solve_none_means_unsolvable_witness :
  ¬ (∀ v w,
       (v, w) ∈ [(slot_across, "CAT"); (slot_long, "CATCH")]%string →
       v ∈ variables mismatch ∧ w ∈ words mismatch).
Proof.
  apply (solve_none_means_unsolvable elements_order mismatch ∅).
  - apply mismatch_well_formed.
  - vm_compute. reflexivity.
  - apply mismatch_filled_solution.
Defined.

(** X15. Every word of the assignment [solve] returns is a candidate of
    its slot, in the domains as [solve] leaves them and as it found
    them. *)
Theorem solve_uses_candidates
    (order : IterOrder) (cw : Crossword) (d : gmap Var (gset string))
    (h : gmap nat (list (Var * string))) (l : nat) :
  run_result (solve cw d h) = Ok (Some l) →
  ∃ a, run_heap (solve cw d h) !! l = Some a ∧
       within (run_domains (solve cw d h)) a ∧ within d a.
Proof.
  destruct (ac3 cw None (enforce_node_consistency d)) as [[b | e |] d2]
    eqn:Hac.
  2, 3: by unfold solve; rewrite Hac.
  rewrite (solve_after_ac3 _ _ _ _ _ _ Hac).
  cbn [run_result run_heap run_domains].
  destruct (backtrack cw (backtrack_fuel cw) d2 (fresh (dom h))
              (<[fresh (dom h) := []]> h)) as [result h2] eqn:Hb.
  simpl. intros ->.
  apply backtrack_extends in Hb as (rest & Hr & Hw).
  2: { apply elem_of_dom. rewrite lookup_insert_eq. eauto. }
  rewrite heap_get_insert in Hr. simpl in Hr.
  exists rest. split_and!; try done.
  eapply within_shrinks; [apply enforce_node_consistency_shrinks |].
  eapply within_shrinks; [| done].
  pose proof (ac3_shrinks cw None (enforce_node_consistency d)) as Hs.
  by rewrite Hac in Hs.
Qed.

Lemma solve_uses_candidates_witness :
  ∃ a, run_heap (@solve crossing elements_order (init_domains crossing) ∅)
         !! 3 = Some a ∧
       within
         (run_domains
            (@solve crossing elements_order (init_domains crossing) ∅)) a ∧
       within (init_domains crossing) a.
Proof.
  apply (solve_uses_candidates elements_order crossing
           (init_domains crossing) ∅ 3).
  vm_compute. reflexivity.
Defined.

(** ** The letter grid *)

Lemma string_get_Some_lt w k c : String.get k w = Some c → k < String.length w.
Proof.
  revert k. induction w as [| c' w IH]; intros k; simpl; [done |].
  destruct k as [| k]; [lia |]. intros H%IH. lia.
Qed.

Lemma grid_set_Ok letters i j c letters' :
  grid_set letters i j c = Ok letters' →
  ∃ row, letters !! i = Some row ∧ j < length row ∧
         letters' = <[i := <[j := Some c]> row]> letters.
Proof.
  unfold grid_set. destruct (letters !! i) as [row |]; [| done].
  case_decide; [| done]. intros [= <-]. eauto.
Qed.

Lemma grid_set_dims height width letters i j c :
  grid_dims height width letters →
  if decide (i < height ∧ j < width)
  then ∃ letters', grid_set letters i j c = Ok letters' ∧
                   grid_dims height width letters'
  else grid_set letters i j c = Raise IndexError.
Proof.
  intros [Hh Hw]. unfold grid_set. case_decide as Hij.
  - destruct Hij as [Hi Hj].
    destruct (lookup_lt_is_Some_2 letters i) as [row Hrow]; [lia |].
    rewrite Hrow.
    assert (Hlen : length row = width).
    { apply Hw. by eapply list_elem_of_lookup_2. }
    rewrite decide_True by lia. eexists. split; [done |].
    split; [by rewrite length_insert |].
    intros row' Hin. apply list_elem_of_lookup in Hin as [i' Hi'].
    destruct (decide (i = i')) as [<- | Hne].
    + rewrite list_lookup_insert_eq in Hi' by lia. injection Hi' as <-.
      by rewrite length_insert.
    + rewrite list_lookup_insert_ne in Hi' by done.
      apply Hw. by eapply list_elem_of_lookup_2.
  - destruct (letters !! i) as [row |] eqn:Hrow; [| done].
    rewrite decide_False; [done |]. intros Hj. apply Hij.
    split.
    + apply lookup_lt_Some in Hrow. lia.
    + rewrite <- (Hw row); [done |]. by eapply list_elem_of_lookup_2.
Qed.

Lemma grid_get_set letters i j c letters' i' j' :
  grid_set letters i j c = Ok letters' →
  grid_get letters' i' j' =
  if decide (i' = i ∧ j' = j) then Some c else grid_get letters i' j'.
Proof.
  intros (row & Hrow & Hj & ->)%grid_set_Ok. unfold grid_get.
  assert (Hi : i < length letters) by (by eapply lookup_lt_Some).
  destruct (decide (i' = i)) as [-> | Hne].
  - rewrite list_lookup_insert_eq by done. rewrite Hrow.
    destruct (decide (j' = j)) as [-> | Hnej].
    + rewrite list_lookup_insert_eq by done. by rewrite decide_True.
    + rewrite list_lookup_insert_ne by done.
      rewrite decide_False; [done |]. by intros [_ ?].
  - rewrite list_lookup_insert_ne by done.
    rewrite decide_False; [done |]. by intros [? _].
Qed.

Lemma blank_grid_dims height width :
  grid_dims height width (replicate height (replicate width None)).
Proof.
  split; [apply length_replicate |].
  intros row [-> _]%elem_of_replicate. apply length_replicate.
Qed.

Lemma blank_grid_get height width i j :
  grid_get (replicate height (replicate width (@None ascii))) i j = None.
Proof.
  unfold grid_get.
  destruct (replicate height _ !! i) as [row |] eqn:Hrow; [| done].
  apply lookup_replicate in Hrow as [-> _].
  destruct (replicate width _ !! j) as [o |] eqn:Ho; [| done].
  by apply lookup_replicate in Ho as [-> _].
Qed.

Section LetterGrid.

Variables height width : nat.

Lemma place_word_spec v word ks letters :
  grid_dims height width letters →
  (∀ k, k ∈ ks → k < String.length word) →
  (∀ k, k ∈ ks → (cell v k).1 < height ∧ (cell v k).2 < width) ∧
    (∃ letters', place_word v word ks letters = Ok letters' ∧
       grid_dims height width letters' ∧
       (∀ i j c, grid_get letters' i j = Some c →
          (∃ k, k ∈ ks ∧ cell v k = (i, j) ∧ String.get k word = Some c) ∨
          grid_get letters i j = Some c) ∧
       (∀ i j, is_Some (grid_get letters i j) →
               is_Some (grid_get letters' i j)) ∧
       (∀ k, k ∈ ks → is_Some (grid_get letters' (cell v k).1 (cell v k).2)))
  ∨ (¬ (∀ k, k ∈ ks → (cell v k).1 < height ∧ (cell v k).2 < width) ∧
     place_word v word ks letters = Raise IndexError).
Proof.
  revert letters. induction ks as [| k ks IH]; intros letters Hdims Hks.
  { left. split; [by intros k Hk%elem_of_nil |].
    exists letters. simpl. split_and!; try done; eauto.
    by intros k Hk%elem_of_nil. }
  destruct (string_get_lt word k) as [c Hc].
  { apply Hks, elem_of_cons. by left. }
  cbn [place_word]. rewrite (proj2 (py_index_Ok word k c) Hc). cbn [obind].
  pose proof (grid_set_dims height width letters (cell v k).1 (cell v k).2 c
                Hdims) as Hset.
  case_decide as Hin.
  2: { right. rewrite Hset. split; [| done]. intros Hall. apply Hin.
       apply Hall, elem_of_cons. by left. }
  destruct Hset as (letters1 & Hset & Hdims1). rewrite Hset. cbn [obind].
  pose proof (λ i j, grid_get_set _ _ _ _ _ i j Hset) as Hget.
  destruct (IH letters1 Hdims1) as
    [(Hfit & letters' & Hpw & Hdims' & Hsound & Hmono & Hcover)
    | (Hnfit & Hpw)].
  { intros k' Hk'. apply Hks, elem_of_cons. by right. }
  - left. split.
    { intros k' [-> | Hk']%elem_of_cons; [done | by apply Hfit]. }
    exists letters'. split_and!; try done.
    + intros i j c' Hc'. destruct (Hsound i j c' Hc')
        as [(k' & Hk' & Hcell & Hg) | Hold].
      * left. exists k'. split_and!; try done. apply elem_of_cons. by right.
      * rewrite Hget in Hold. case_decide as Hij; [| by right].
        left. exists k. destruct Hij as [-> ->]. injection Hold as <-.
        split_and!; [apply elem_of_cons; by left | | done].
        by destruct (cell v k).
    + intros i j Hs. apply Hmono. rewrite Hget. case_decide; [eauto | done].
    + intros k' [-> | Hk']%elem_of_cons; [| by apply Hcover].
      apply Hmono. rewrite Hget. rewrite decide_True by done. eauto.
  - right. split; [| done]. intros Hall. apply Hnfit.
    intros k' Hk'. apply Hall, elem_of_cons. by right.
Qed.

Lemma place_items_spec items letters :
  grid_dims height width letters →
  (fits height width items ∧
    (∃ letters', place_items items letters = Ok letters' ∧
       grid_dims height width letters' ∧
       (∀ i j c, grid_get letters' i j = Some c →
          (∃ v word k, (v, word) ∈ items ∧ cell v k = (i, j) ∧
                       String.get k word = Some c) ∨
          grid_get letters i j = Some c) ∧
       (∀ i j, is_Some (grid_get letters i j) →
               is_Some (grid_get letters' i j)) ∧
       (∀ v word k, (v, word) ∈ items → k < String.length word →
          is_Some (grid_get letters' (cell v k).1 (cell v k).2))))
  ∨ (¬ fits height width items ∧
     place_items items letters = Raise IndexError).
Proof.
  revert letters. induction items as [| [v word] items IH];
    intros letters Hdims.
  { left. split; [by intros v word k Hin%elem_of_nil |].
    exists letters. simpl. split_and!; try done; eauto.
    by intros v word k Hin%elem_of_nil. }
  cbn [place_items].
  destruct (place_word_spec v word (seq 0 (String.length word)) letters Hdims)
    as [(Hfit & letters1 & Hpw & Hdims1 & Hsound1 & Hmono1 & Hcover1)
       | (Hnfit & Hpw)].
  { intros k Hk%elem_of_seq. lia. }
  2: { right. rewrite Hpw. split; [| done]. intros Hall. apply Hnfit.
       intros k Hk%elem_of_seq. apply (Hall v word k);
         [apply elem_of_cons; by left | lia]. }
  rewrite Hpw. simpl.
  destruct (IH letters1 Hdims1) as
    [(Hfits & letters' & Hpi & Hdims' & Hsound & Hmono & Hcover)
    | (Hnfits & Hpi)].
  - left. split.
    { intros v' word' k [[= -> ->] | Hin]%elem_of_cons Hk.
      - apply Hfit, elem_of_seq. lia.
      - by eapply Hfits. }
    exists letters'. split_and!; try done.
    + intros i j c Hc. destruct (Hsound i j c Hc)
        as [(v' & word' & k & Hin & Hcell & Hg) | Hold].
      * left. exists v', word', k. split_and!; try done.
        apply elem_of_cons. by right.
      * destruct (Hsound1 i j c Hold) as [(k & Hk & Hcell & Hg) | Hold1];
          [| by right].
        left. exists v, word, k. split_and!; try done.
        apply elem_of_cons. by left.
    + intros i j Hs. by apply Hmono, Hmono1.
    + intros v' word' k [[= -> ->] | Hin]%elem_of_cons Hk.
      * apply Hmono, Hcover1, elem_of_seq. lia.
      * by eapply Hcover.
  - right. split; [| done]. intros Hall. apply Hnfits.
    intros v' word' k Hin Hk. apply (Hall v' word' k); [| done].
    apply elem_of_cons. by right.
Qed.

End LetterGrid.

(** X16. [letter_grid] returns a grid exactly when every letter of every
    assigned word falls inside the grid, and raises [IndexError]
    otherwise. *)
Theorem letter_grid_fits
    (height width : nat) (a : list (Var * string)) :
  ((∃ letters, letter_grid height width a = Ok letters) ↔
   fits height width a) ∧
  (letter_grid height width a = Raise IndexError ↔ ¬ fits height width a).
Proof.
  unfold letter_grid.
  destruct (place_items_spec height width a _ (blank_grid_dims height width))
    as [(Hfits & letters & Hpi & _) | (Hnfits & Hpi)]; rewrite Hpi.
  - split; split; try done; eauto.
  - split; split; try done. by intros [letters Hl].
Qed.

(** X17. The grid [letter_grid] returns has [height] rows of [width]
    cells; a cell that holds a letter holds the letter some assigned word
    has at that cell; and when the words that cover a cell agree on it,
    every letter of every assigned word is at its cell. *)
Theorem letter_grid_content
    (height width : nat) (a : list (Var * string))
    (letters : list (list (option ascii))) :
  letter_grid height width a = Ok letters →
  (length letters = height ∧ ∀ row, row ∈ letters → length row = width) ∧
  (∀ i j c, grid_get letters i j = Some c →
     ∃ v word k, (v, word) ∈ a ∧ cell v k = (i, j) ∧
                 String.get k word = Some c) ∧
  (cells_agree a →
   ∀ v word k c, (v, word) ∈ a → String.get k word = Some c →
                 grid_get letters (cell v k).1 (cell v k).2 = Some c).
Proof.
  unfold letter_grid. intros Hlg.
  destruct (place_items_spec height width a _ (blank_grid_dims height width))
    as [(Hfits & letters' & Hpi & Hdims & Hsound & _ & Hcover)
       | (Hnfits & Hpi)]; [| congruence].
  rewrite Hlg in Hpi. injection Hpi as <-.
  assert (Hs : ∀ i j c, grid_get letters i j = Some c →
            ∃ v word k, (v, word) ∈ a ∧ cell v k = (i, j) ∧
                        String.get k word = Some c).
  { intros i j c Hc. destruct (Hsound i j c Hc) as [H | H]; [done |].
    by rewrite blank_grid_get in H. }
  split_and!; [apply Hdims | apply Hdims | done |].
  intros Hagree v word k c Hin Hg.
  destruct (Hcover v word k Hin) as [c' Hc'].
  { by eapply string_get_Some_lt. }
  rewrite Hc'. f_equal.
  destruct (Hs _ _ _ Hc') as (v' & word' & k' & Hin' & Hcell & Hg').
  eapply (Hagree v' word' k' c' v word k c); try done.
Qed.

Lemma letter_grid_content_witness :
  let a := [(slot_across, "CAT"); (slot_down, "COW")]%string in
  let letters :=
    [[Some "C"; Some "A"; Some "T"];
     [Some "O"; None; None];
     [Some "W"; None; None]]%char in
  (length letters = 3 ∧ ∀ row, row ∈ letters → length row = 3) ∧
  (∀ i j c, grid_get letters i j = Some c →
     ∃ v word k, (v, word) ∈ a ∧ cell v k = (i, j) ∧
                 String.get k word = Some c) ∧
  (cells_agree a →
   ∀ v word k c, (v, word) ∈ a → String.get k word = Some c →
                 grid_get letters (cell v k).1 (cell v k).2 = Some c).
Proof.
  intros a letters. apply (letter_grid_content 3 3 a letters).
  vm_compute. reflexivity.
Defined.

Lemma revise_exact_witness :
  let d : gmap Var (gset string) :=
    {[ slot_across := {["CAT"; "DOG"]}%string;
       slot_down := {["COW"]}%string ]} in
  let d' := (@revise crossing elements_order slot_across slot_down d).2 in
  (∀ z, z ≠ slot_across → d' !! z = d !! z) ∧
  (true = true ↔ d' ≠ d) ∧
  (∀ i j xs,
     overlaps crossing !! (slot_across, slot_down)
       = Some (Offsets (Some i) (Some j)) →
     d !! slot_across = Some xs →
     ∃ xs', d' !! slot_across = Some xs' ∧
            ∀ w, w ∈ xs' ↔ w ∈ xs ∧ supported d slot_down i j w).
Proof.
  intros d d'.
  apply (revise_exact elements_order crossing d d' slot_across slot_down true).
  vm_compute. reflexivity.
Defined.

(** X18. On a well-formed puzzle, [consistent] raises no exception on an
    assignment whose words have the lengths of their slots. *)
Theorem consistent_never_raises
    (order : IterOrder) (cw : Crossword) (a : list (Var * string)) :
  well_formed cw →
  NoDup a.*1 → lengths_ok a →
  ∃ b, consistent cw a = Ok b.
Proof. intros Hwf. by apply consistent_no_raise. Qed.

Lemma consistent_never_raises_witness :
  ∃ b,
    @consistent crossing elements_order
      [(slot_across, "CAT"); (slot_down, "DOG")]%string = Ok b.
Proof.
  apply (consistent_never_raises elements_order crossing).
  - apply crossing_well_formed.
  - vm_compute. repeat constructor; set_solver.
  - intros v w Hin. apply elem_of_cons in Hin as [[= -> ->] | Hin]; [done |].
    apply list_elem_of_singleton in Hin as [= -> ->]. done.
Defined.

(** X19. On a well-formed puzzle, when [backtrack] returns [None] no
    solution made of candidates contains the items of the assignment it
    was given. *)
Theorem backtrack_none_means_no_extension
    (order : IterOrder) (cw : Crossword) (fuel : nat)
    (d : gmap Var (gset string)) (l : nat)
    (h h' : gmap nat (list (Var * string))) (s : list (Var * string)) :
  well_formed cw →
  backtrack cw fuel d l h = (Ok None, h') →
  l ∈ dom h → NoDup (heap_get h l).*1 →
  solution cw s → within d s →
  ¬ extends (heap_get h l) s.
Proof.
  intros Hwf Hb Hl Hnd Hsol Hw Hext.
  by eapply (backtrack_complete cw Hwf d fuel l h h' s).
Qed.

Lemma backtrack_none_means_no_extension_witness :
  let d := @enforce_node_consistency elements_order (init_domains crossing) in
  let h : gmap nat (list (Var * string)) :=
    {[ 0 := [(slot_across, "DOG"%string)] ]} in
  ¬ extends (heap_get h 0) [(slot_across, "CAT"); (slot_down, "COW")]%string.
Proof.
  intros d h.
  apply (backtrack_none_means_no_extension elements_order crossing 3 d 0 h
           (@backtrack crossing elements_order 3 d 0 h).2).
  - apply crossing_well_formed.
  - vm_compute. reflexivity.
  - vm_compute. reflexivity.
  - vm_compute. repeat constructor; set_solver.
  - apply crossing_filled_solution.
  - apply crossing_filled_within.
Defined.
